(** * Sliding-window-counter rate limiter (pkg/limiter, pkg/server)

    A shallow embedding of [pkg/limiter/limiter.go] and of the request
    handler of [pkg/server/server.go], with the properties of the
    limiter stated and proved over it.

    - [Int64]    : Go's [int64] (and [time.Duration]) as [Z] with wrap-around.
    - [Float64]  : Go's [float64] as IEEE-754 binary64 ([SpecFloat]).
    - [time]     : the part of Go's [time] package the limiter calls.
    - [limiter]  : [Rule], [AddRule], [Limiter], [AllowRequest], [Allow],
                   [ResetLimiter].
    - [server]   : the status and header the handler answers with.
    - [schedule] : interleavings of the atomic steps of [AllowRequest].

    The weighted count of the previous window is computed in float64;
    its properties rest on a proof, from the definitions of [SpecFloat],
    that rounding to nearest even stays within a relative error of
    2^-53 ([binary_round_aux_correct] and the lemmas after it). *)

From Stdlib Require Import ZArith Lia Bool List Sorted SpecFloat QArith Qpower Lqa.
From stdpp Require Import gmap strings.

Local Open Scope Z_scope.

(** ** int64 and time.Duration *)

Module Int64.

Definition min_int : Z := - 2 ^ 63.
Definition max_int : Z := 2 ^ 63 - 1.

Definition in_range (z : Z) : bool := (min_int <=? z) && (z <=? max_int).

(** Two's complement wrap-around of a mathematical integer. *)
Definition wrap (z : Z) : Z := (z + 2 ^ 63) mod 2 ^ 64 - 2 ^ 63.

Definition add (a b : Z) : Z := wrap (a + b).
Definition sub (a b : Z) : Z := wrap (a - b).
Definition neg (a : Z) : Z := wrap (- a).

(** Saturation, as [Time.Sub] does when the difference does not fit. *)
Definition saturate (z : Z) : Z :=
  if z <? min_int then min_int else if max_int <? z then max_int else z.

End Int64.

(** ** float64 *)

(** What a conversion [int64(f)] yields when [f] is a NaN, an infinity or
    lies outside [int64]: the Go specification leaves that value to the
    implementation (amd64 yields [-2^63], arm64 saturates and maps NaN
    to 0), so the model takes it from the platform. *)
Class Platform := { int64_of_unrepresentable : spec_float -> Z }.

(** The amd64 instruction CVTTSD2SQ answers the "integer indefinite"
    value for every operand it cannot convert. *)
Definition amd64 : Platform := {| int64_of_unrepresentable := fun _ => Int64.min_int |}.

(** A platform whose conversion saturates, as the RISC-V instruction
    FCVT.L.D does: the largest [int64] for a NaN and for an operand
    above the range, the smallest for an operand below it. *)
Definition saturating : Platform :=
  {| int64_of_unrepresentable := fun f =>
       match f with
       | S754_infinity true | S754_finite true _ _ => Int64.min_int
       | _ => Int64.max_int
       end |}.

Module Float64.

Definition prec : Z := 53.
Definition emax : Z := 1024.

Definition float64 : Type := spec_float.

(** [float64(z)] for an [int64] [z]: round to nearest, ties to even. *)
Definition of_int64 (z : Z) : float64 := binary_normalize prec emax z 0 false.

Definition mul (x y : float64) : float64 := SFmul prec emax x y.
Definition div (x y : float64) : float64 := SFdiv prec emax x y.

(** The integer part of a finite float (truncation toward zero). *)
Definition trunc (f : float64) : option Z :=
  match f with
  | S754_zero _ => Some 0
  | S754_finite s m e => Some (cond_Zopp s (Z.shiftl (Z.pos m) e))
  | S754_infinity _ | S754_nan => None
  end.

(** [int64(f)]. *)
Definition to_int64 `{Platform} (f : float64) : Z :=
  match trunc f with
  | Some z => if Int64.in_range z then z else int64_of_unrepresentable f
  | None => int64_of_unrepresentable f
  end.

End Float64.

(** ** The time package *)

Module time.

(** [time.Duration]: an [int64] count of nanoseconds. *)
Definition Duration : Type := Z.

Definition Nanosecond : Duration := 1.
Definition Millisecond : Duration := 1000000.
Definition Second : Duration := 1000000000.
Definition Minute : Duration := 60 * Second.

(** The [*Location] of a [Time]: [nil] in the zero [Time{}], [&localLoc]
    in every result of [time.Now]. *)
Inductive Location : Type := LocNil | LocLocal.

(** A [time.Time] without monotonic clock reading: the wall-clock
    instant in nanoseconds since January 1, year 1, 00:00:00 UTC
    (seconds [ext] and nanoseconds [wall] taken together), and the
    location pointer.  Go's [==] on [Time] compares all of it. *)
Record Time : Type := mkTime { abs_ns : Z; loc : Location }.

(** [time.Time{}] *)
Definition zero : Time := mkTime 0 LocNil.

(** [time.Now()] when the wall clock reads [clock]; the monotonic
    reading it also carries is dropped by [Truncate] and is not used
    by [Sub] against a time that has none. *)
Definition Now (clock : Z) : Time := mkTime clock LocLocal.

Definition Location_eqb (a b : Location) : bool :=
  match a, b with
  | LocNil, LocNil | LocLocal, LocLocal => true
  | _, _ => false
  end.

(** [t == u] *)
Definition eqb (t u : Time) : bool :=
  (abs_ns t =? abs_ns u) && Location_eqb (loc t) (loc u).

(** [t.Truncate(d)]: [t] rounded down to a multiple of [d] since the
    zero time; [t] itself when [d <= 0]. *)
Definition Truncate (t : Time) (d : Duration) : Time :=
  if d <=? 0 then t
  else mkTime (abs_ns t - abs_ns t mod d) (loc t).

(** [t.Add(d)] *)
Definition Add (t : Time) (d : Duration) : Time :=
  mkTime (abs_ns t + d) (loc t).

(** [t.Sub(u)]: the difference, saturated to [int64]. *)
Definition Sub (t u : Time) : Duration :=
  Int64.saturate (abs_ns t - abs_ns u).

End time.

(** ** pkg/limiter *)

Module limiter.

Import time.

(** Rule encapsulates max requests per unit of time. *)
Record Rule : Type := mkRule {
  maxRequests : Z;
  unit : Duration
}.

(** Limiter: the sliding window counters of one client (the mutex
    [lock] guards the update in [Allow], which is one atomic step
    here). *)
Record Limiter : Type := mkLimiter {
  prevWindow : Time;
  prevCounter : Z;
  currWindow : Time;
  currCounter : Z
}.

(** [&Limiter{}] *)
Definition newLimiter : Limiter := mkLimiter zero 0 zero 0.

(** The package globals: [rule] (nil or a pointer to a rule) and
    [clientLimiterMap]. *)
Record Globals : Type := mkGlobals {
  rule : option Rule;
  clientLimiterMap : gmap string Limiter
}.

(** The state of the package when the program starts. *)
Definition init : Globals := mkGlobals None ∅.

(** [AddRule(maxRequests, unit)] *)
Definition AddRule (maxRequests : Z) (unit : Duration) (g : Globals) : Globals :=
  mkGlobals (Some (mkRule maxRequests unit)) (clientLimiterMap g).

(** [ResetLimiter()] *)
Definition ResetLimiter (g : Globals) : Globals :=
  mkGlobals (rule g) ∅.

Section Allow.
Context `{Platform}.

(** The body of the locked closure of [Allow]: the window counters
    after the call. *)
Definition advance (newCurrWindow newPrevWindow : Time) (l : Limiter) : Limiter :=
  if eqb newCurrWindow (currWindow l) then
    mkLimiter (prevWindow l) (prevCounter l) (currWindow l) (Int64.add (currCounter l) 1)
  else if eqb newPrevWindow (currWindow l) then
    mkLimiter (currWindow l) (currCounter l) newCurrWindow 0
  else
    mkLimiter zero 0 newCurrWindow 0.

(** [prevWindowWeightedCounter] *)
Definition weighted (newPrevCounter : Z) (prevWindowOverlap unit : Duration) : Z :=
  Float64.to_int64
    (Float64.mul (Float64.of_int64 newPrevCounter)
       (Float64.div (Float64.of_int64 prevWindowOverlap) (Float64.of_int64 unit))).

(** [prevWindowOverlap] *)
Definition overlap (r : Rule) (now newCurrWindow : Time) : Duration :=
  Int64.sub (unit r) (Sub now newCurrWindow).

(** [activeNumRequests] for the counters [l] that [advance] left. *)
Definition activeNumRequests (r : Rule) (now : Time) (l : Limiter) : Z :=
  Int64.add (weighted (prevCounter l) (overlap r now (currWindow l)) (unit r))
            (currCounter l).

(** [l.Allow()] under the rule [r] (the global [rule], which
    [AllowRequest] has found non-nil) when the clock reads [clock]:
    the two results and the limiter after the call. *)
Definition Allow (r : Rule) (clock : Z) (l : Limiter) : (bool * Duration) * Limiter :=
  let now := Now clock in
  let newCurrWindow := Truncate now (unit r) in
  let newPrevWindow := Add newCurrWindow (Int64.neg (unit r)) in
  let l' := advance newCurrWindow newPrevWindow l in
  let newCurrWindow := currWindow l' in
  let prevWindowOverlap := overlap r now newCurrWindow in
  ((activeNumRequests r now l' <? maxRequests r, prevWindowOverlap), l').

(** [AllowRequest(clientId)] when the clock reads [clock]. *)
Definition AllowRequest (clientId : string) (clock : Z) (g : Globals)
  : (bool * Duration) * Globals :=
  match rule g with
  | None => ((true, -1), g)
  | Some r =>
      let l := match clientLimiterMap g !! clientId with
               | Some l => l
               | None => newLimiter
               end in
      let '(res, l') := Allow r clock l in
      (res, mkGlobals (rule g) (<[clientId := l']> (clientLimiterMap g)))
  end.

End Allow.

End limiter.

(** ** pkg/server *)

Module server.

Import time limiter.

Definition StatusOK : Z := 200.
Definition StatusTooManyRequests : Z := 429.

Record clientMetric : Type := mkClientMetric {
  NumAccepted : Z;
  NumRejected : Z
}.

(** [reportMetric(id, accepted)] on [clientMetricMap]. *)
Definition reportMetric (id : string) (accepted : bool)
    (clientMetricMap : gmap string clientMetric) : gmap string clientMetric :=
  let val := match clientMetricMap !! id with
             | Some v => v
             | None => mkClientMetric 0 0
             end in
  let val := if accepted
             then mkClientMetric (Int64.add (NumAccepted val) 1) (NumRejected val)
             else mkClientMetric (NumAccepted val) (Int64.add (NumRejected val) 1) in
  <[id := val]> clientMetricMap.

(** What a handler answers: the status code and the
    [X-RateLimit-Reset] header, when set (the text of the body is not
    modelled). *)
Record Response : Type := mkResponse {
  StatusCode : Z;
  RateLimitReset : option Duration
}.

(** The handler that [CreateHttpServers] registers for each endpoint,
    for a request whose [clientId] header is [clientId]. *)
Definition handler `{Platform} (clientId : string) (clock : Z)
    (s : Globals * gmap string clientMetric)
    : Response * (Globals * gmap string clientMetric) :=
  let '((allowRequest, timeLeft), g) := AllowRequest clientId clock (fst s) in
  if allowRequest
  then (mkResponse StatusOK None, (g, reportMetric clientId true (snd s)))
  else (mkResponse StatusTooManyRequests (Some timeLeft),
        (g, reportMetric clientId false (snd s))).



End server.

(** ** Goroutines calling AllowRequest *)

(** [AllowRequest] as the atomic steps it is made of, so that calls of
    several goroutines can be interleaved: the nil check of [rule], the
    [Load] on the [sync.Map], the allocation and [Store] after a miss,
    and [l.Allow()] (whose update of the counters runs under the mutex
    of [l]).  Limiters live on a heap and the map holds pointers, as in
    the source. *)
Module schedule.

Import time limiter.

(** A [*Limiter]: the index of the limiter on the heap. *)
Definition ptr : Type := nat.

(** Where a goroutine stands in [AllowRequest]. *)
Inductive pc : Type :=
| AtNilCheck                      (* before [if rule == nil] *)
| AtLoad                          (* before [clientLimiterMap.Load(clientId)] *)
| AtStore                         (* [Load] answered !ok: before [&Limiter{}] and [Store] *)
| AtAllow (l : ptr)               (* before [l.Allow()] *)
| Returned (res : bool * Duration).

Record State : Type := mkState {
  rule : option Rule;
  heap : list Limiter;
  clientLimiterMap : gmap string ptr;
  goroutines : list (string * pc)
}.

Definition goto (i : nat) (clientId : string) (at_ : pc) (s : State) : State :=
  mkState (rule s) (heap s) (clientLimiterMap s) (<[i := (clientId, at_)]> (goroutines s)).

(** The next atomic step of goroutine [i], when the clock reads [clock]. *)
Definition step `{Platform} (i : nat) (clock : Z) (s : State) : State :=
  match goroutines s !! i with
  | Some (clientId, AtNilCheck) =>
      match rule s with
      | None => goto i clientId (Returned (true, -1)) s
      | Some _ => goto i clientId AtLoad s
      end
  | Some (clientId, AtLoad) =>
      match clientLimiterMap s !! clientId with
      | Some l => goto i clientId (AtAllow l) s
      | None => goto i clientId AtStore s
      end
  | Some (clientId, AtStore) =>
      let l := length (heap s) in
      goto i clientId (AtAllow l)
        (mkState (rule s) (heap s ++ [newLimiter])
           (<[clientId := l]> (clientLimiterMap s)) (goroutines s))
  | Some (clientId, AtAllow l) =>
      match rule s, heap s !! l with
      | Some r, Some lim =>
          let '(res, lim') := Allow r clock lim in
          goto i clientId (Returned res)
            (mkState (rule s) (<[l := lim']> (heap s)) (clientLimiterMap s) (goroutines s))
      | _, _ => s
      end
  | Some (_, Returned _) | None => s
  end.

(** The state after the steps of a schedule: which goroutine moves,
    and what the clock reads then. *)
Definition run `{Platform} (sched : list (nat * Z)) (s : State) : State :=
  fold_left (fun s '(i, clock) => step i clock s) sched s.

(** [n] goroutines that each start a call [AllowRequest(clientId)]
    when no client has been seen yet. *)
Definition spawn (r : option Rule) (clientId : string) (n : nat) : State :=
  mkState r [] ∅ (replicate n (clientId, AtNilCheck)).

End schedule.

Import time limiter.

(** ** Sequences of calls *)

(** The limiter of one client after calls of [Allow] at the clock
    readings [clocks], in that order. *)
Definition calls `{Platform} (r : Rule) (clocks : list Z) (l : Limiter) : Limiter :=
  fold_left (fun l clock => snd (Allow r clock l)) clocks l.

(** The decisions of [AllowRequest] for one client at the clock readings
    [clocks], in that order, and the globals after them. *)
Fixpoint requests `{Platform} (clientId : string) (clocks : list Z) (g : Globals)
  : list (bool * Duration) * Globals :=
  match clocks with
  | [] => ([], g)
  | clock :: clocks =>
      let '(res, g) := AllowRequest clientId clock g in
      let '(ress, g) := requests clientId clocks g in
      (res :: ress, g)
  end.



(** The limiter of [clientId], or the one [AllowRequest] would create. *)
Definition limiterOf (g : Globals) (clientId : string) : Limiter :=
  default newLimiter (clientLimiterMap g !! clientId).


(** ** Requests to the server *)






(** ** Goroutines and the sequential model *)

(** The package globals that a state of the goroutines stands for: each
    client with the limiter its pointer leads to. *)
Definition globals_of (s : schedule.State) : Globals :=
  mkGlobals (schedule.rule s)
    (omap (fun l => schedule.heap s !! l) (schedule.clientLimiterMap s)).

(** Every pointer in the map leads to a limiter on the heap, and no two
    clients share a limiter. *)
Definition pointers_valid (s : schedule.State) : Prop :=
  (forall k l, schedule.clientLimiterMap s !! k = Some l -> (l < length (schedule.heap s))%nat)
  /\ (forall k1 k2 l, schedule.clientLimiterMap s !! k1 = Some l ->
                      schedule.clientLimiterMap s !! k2 = Some l -> k1 = k2).

(** Every goroutine that is still in its call has a client with a
    pointer in the map, none is about to allocate, and one that is
    about to call [l.Allow()] holds the pointer of the map. *)
Definition registered (s : schedule.State) : Prop :=
  Forall (fun g => match snd g with
                   | schedule.AtNilCheck | schedule.AtLoad =>
                       is_Some (schedule.clientLimiterMap s !! fst g)
                   | schedule.AtStore => False
                   | schedule.AtAllow l => schedule.clientLimiterMap s !! fst g = Some l
                   | schedule.Returned _ => True
                   end) (schedule.goroutines s).

(** ** Values of floats *)

(** [2 ^ e] as a rational, for any integer [e]. *)
Definition pow2 (e : Z) : Q := Qpower 2 e.

(** [x] lies at the position [l] between [m * 2^e] and [(m+1) * 2^e]:
    on [m * 2^e] ([loc_Exact]), or strictly inside and below, on or
    above the midpoint. *)
Definition located (x : Q) (m e : Z) (l : location) : Prop :=
  match l with
  | loc_Exact => (x == inject_Z m * pow2 e)%Q
  | loc_Inexact c =>
      (inject_Z m * pow2 e < x < (inject_Z m + 1) * pow2 e)%Q
      /\ match c with
         | Lt => (x < (inject_Z m + (1 # 2)) * pow2 e)%Q
         | Eq => (x == (inject_Z m + (1 # 2)) * pow2 e)%Q
         | Gt => ((inject_Z m + (1 # 2)) * pow2 e < x)%Q
         end
  end.

(** The magnitude of the finite float with mantissa [m] and exponent [e]. *)
Definition Fval (m : positive) (e : Z) : Q := (inject_Z (Z.pos m) * pow2 e)%Q.

(** Half a unit in the last place, relative to the value: 2^-53. *)
Definition eps : Q := 1 # 9007199254740992.

(** * Properties *)

(** ** int64 arithmetic and times *)

Lemma wrap_in_range (z : Z) :
  Int64.min_int <= z <= Int64.max_int -> Int64.wrap z = z.
Proof.
  unfold Int64.wrap, Int64.min_int, Int64.max_int. intros Hz.
  rewrite Z.mod_small by lia. lia.
Qed.

Lemma saturate_in_range (z : Z) :
  Int64.min_int <= z <= Int64.max_int -> Int64.saturate z = z.
Proof.
  unfold Int64.saturate. intros Hz.
  destruct (Z.ltb_spec z Int64.min_int); [lia|].
  destruct (Z.ltb_spec Int64.max_int z); [lia|]. reflexivity.
Qed.

Lemma Time_eqb_eq (t u : Time) : eqb t u = true <-> t = u.
Proof.
  destruct t as [a la], u as [b lb]. unfold eqb. cbn.
  rewrite andb_true_iff, Z.eqb_eq. split.
  - intros [-> Hl]. destruct la, lb; cbn in Hl; congruence.
  - intros [= -> ->]. split; [reflexivity|]. destruct lb; reflexivity.
Qed.

Lemma Time_eqb_neq (t u : Time) : eqb t u = false <-> t <> u.
Proof.
  rewrite <- Time_eqb_eq. destruct (eqb t u); split; congruence.
Qed.

(** For a positive [d], [Truncate] is the floor to a multiple of [d]. *)
Lemma Truncate_pos (t : Time) (d : Duration) :
  0 < d -> Truncate t d = mkTime (abs_ns t / d * d) (loc t).
Proof.
  intros Hd. unfold Truncate.
  destruct (Z.leb_spec d 0); [lia|].
  f_equal. pose proof (Z.div_mod (abs_ns t) d). lia.
Qed.

Lemma Sub_Truncate_pos (clock : Z) (d : Duration) :
  0 < d <= Int64.max_int ->
  Sub (Now clock) (Truncate (Now clock) d) = clock mod d.
Proof.
  intros Hd. unfold Truncate, Sub.
  destruct (Z.leb_spec d 0); [lia|]. cbn.
  pose proof (Z.mod_pos_bound clock d).
  rewrite saturate_in_range; unfold Int64.min_int, Int64.max_int in *; lia.
Qed.

(** The current window after [advance] is the new one, in each branch. *)
Lemma currWindow_advance (c p : Time) (l : Limiter) :
  currWindow (advance c p l) = c.
Proof.
  unfold advance. destruct (eqb c (currWindow l)) eqn:E.
  - cbn. symmetry. now apply Time_eqb_eq.
  - destruct (eqb p (currWindow l)); reflexivity.
Qed.

Section Sequential.
Context `{Platform}.

Lemma Allow_duration (r : Rule) (clock : Z) (l : Limiter) :
  snd (fst (Allow r clock l))
  = Int64.sub (unit r) (Sub (Now clock) (Truncate (Now clock) (unit r))).
Proof.
  unfold Allow. cbn. unfold overlap. now rewrite currWindow_advance.
Qed.

Lemma Allow_duration_pos (r : Rule) (clock : Z) (l : Limiter) :
  0 < unit r <= Int64.max_int ->
  snd (fst (Allow r clock l)) = unit r - clock mod unit r.
Proof.
  intros Hu. rewrite Allow_duration, Sub_Truncate_pos by assumption.
  pose proof (Z.mod_pos_bound clock (unit r)).
  apply wrap_in_range. unfold Int64.min_int, Int64.max_int in *. lia.
Qed.

Lemma AllowRequest_rule (clientId : string) (clock : Z) (g : Globals) (r : Rule) :
  rule g = Some r ->
  AllowRequest clientId clock g
  = (fst (Allow r clock (default newLimiter (clientLimiterMap g !! clientId))),
     mkGlobals (Some r)
       (<[clientId := snd (Allow r clock (default newLimiter (clientLimiterMap g !! clientId)))]>
          (clientLimiterMap g))).
Proof.
  intros Hr. unfold AllowRequest. rewrite Hr.
  destruct (clientLimiterMap g !! clientId) as [l|]; cbn [default from_option id].
  - now destruct (Allow r clock l).
  - now destruct (Allow r clock newLimiter).
Qed.

End Sequential.

(** ** Rounding to nearest in binary64 *)

Lemma pow2_pos e : (0 < pow2 e)%Q.
Proof. unfold pow2. apply Qpower_0_lt. reflexivity. Qed.

Lemma pow2_add a b : (pow2 (a + b) == pow2 a * pow2 b)%Q.
Proof. unfold pow2. apply Qpower_plus. discriminate. Qed.

Lemma pow2_succ e : (pow2 (e + 1) == 2 * pow2 e)%Q.
Proof. rewrite pow2_add. unfold pow2 at 2. cbn. lra. Qed.

Lemma shr_1_case m r s :
  0 <= m ->
  exists m' (b : bool), m = 2 * m' + (if b then 1 else 0) /\ 0 <= m'
    /\ shr_1 (Build_shr_record m r s) = Build_shr_record m' b (r || s).
Proof.
  intros Hm. destruct m as [|[p|p|]|p]; try lia.
  - exists 0, false. repeat split; lia.
  - exists (Z.pos p), true. repeat split; lia.
  - exists (Z.pos p), false. repeat split; lia.
  - exists 0, true. repeat split; lia.
Qed.

Lemma shr_1_m mrs : 0 <= shr_m mrs -> shr_m (shr_1 mrs) = shr_m mrs / 2.
Proof.
  destruct mrs as [m r s]. cbn [shr_m]. intros Hm.
  destruct (shr_1_case m r s Hm) as (m' & b & Hm' & _ & ->). cbn [shr_m].
  destruct b; Z.div_mod_to_equations; lia.
Qed.

Lemma located_shr_1 x e mrs :
  0 <= shr_m mrs ->
  located x (shr_m mrs) e (loc_of_shr_record mrs) ->
  located x (shr_m (shr_1 mrs)) (e + 1) (loc_of_shr_record (shr_1 mrs)).
Proof.
  destruct mrs as [m r s]. cbn [shr_m]. intros Hm Hl.
  pose proof (pow2_pos e) as Hp. pose proof (pow2_succ e) as Hs.
  destruct (shr_1_case m r s Hm) as (m' & b & Hm' & _ & ->). cbn [shr_m].
  assert (HQ : (inject_Z m == 2 * inject_Z m' + (if b then 1 else 0))%Q).
  { rewrite Hm'. rewrite inject_Z_plus, inject_Z_mult. destruct b; reflexivity. }
  destruct b, r, s; cbn [loc_of_shr_record orb located] in *;
    rewrite HQ in Hl; rewrite ?Hs; repeat split; lra.
Qed.

Lemma pow2_nonneg_Z e : 0 <= e -> (pow2 e == inject_Z (2 ^ e))%Q.
Proof. intros He. unfold pow2. rewrite Zpower_Qpower by assumption. reflexivity. Qed.

Lemma pow2_lt a b : a < b -> (pow2 a < pow2 b)%Q.
Proof.
  intros Hab. replace b with (a + (b - a)) by lia.
  rewrite pow2_add. rewrite (pow2_nonneg_Z (b - a)) by lia.
  pose proof (pow2_pos a).
  assert (1 < inject_Z (2 ^ (b - a)))%Q.
  { change 1%Q with (inject_Z 1). rewrite <- Zlt_Qlt.
    apply Z.pow_gt_1; lia. }
  nra.
Qed.

Lemma pow2_le a b : a <= b -> (pow2 a <= pow2 b)%Q.
Proof.
  intros Hab. destruct (Z.eq_dec a b) as [->|Hne]; [lra|].
  apply Qlt_le_weak, pow2_lt. lia.
Qed.

Lemma pow2_lt_inv a b : (pow2 a < pow2 b)%Q -> a < b.
Proof.
  intros Hlt. destruct (Z.lt_ge_cases a b) as [|Hge]; [assumption|].
  apply pow2_le in Hge. lra.
Qed.

Lemma digits2_pos_bounds (p : positive) :
  2 ^ (Z.pos (digits2_pos p) - 1) <= Z.pos p < 2 ^ Z.pos (digits2_pos p).
Proof.
  induction p as [p IH|p IH|]; cbn [digits2_pos].
  - rewrite Pos2Z.inj_succ, (Pos2Z.inj_xI p).
    replace (Z.succ (Z.pos (digits2_pos p)) - 1) with (Z.succ (Z.pos (digits2_pos p) - 1)) by lia.
    rewrite !Z.pow_succ_r by lia.
    destruct IH as [IH1 IH2]. revert IH1 IH2.
    generalize (2 ^ (Z.pos (digits2_pos p) - 1)) (2 ^ Z.pos (digits2_pos p)). intros; lia.
  - rewrite Pos2Z.inj_succ, (Pos2Z.inj_xO p).
    replace (Z.succ (Z.pos (digits2_pos p)) - 1) with (Z.succ (Z.pos (digits2_pos p) - 1)) by lia.
    rewrite !Z.pow_succ_r by lia.
    destruct IH as [IH1 IH2]. revert IH1 IH2.
    generalize (2 ^ (Z.pos (digits2_pos p) - 1)) (2 ^ Z.pos (digits2_pos p)). intros; lia.
  - cbn. lia.
Qed.

Lemma Zdigits2_bounds (m : Z) :
  0 < m -> 0 < Zdigits2 m /\ 2 ^ (Zdigits2 m - 1) <= m < 2 ^ Zdigits2 m.
Proof.
  destruct m as [|p|p]; try lia. intros _. cbn [Zdigits2].
  split; [lia | apply digits2_pos_bounds].
Qed.

Lemma Zdigits2_unique (m d : Z) :
  2 ^ (d - 1) <= m < 2 ^ d -> 0 < m -> Zdigits2 m = d.
Proof.
  intros Hd Hm. destruct (Zdigits2_bounds m Hm) as [Hpos Hb].
  assert (0 < d).
  { destruct (Z.lt_ge_cases 0 d); [assumption|].
    destruct (Z.eq_dec d 0) as [->|]; [cbn in Hd; lia|].
    rewrite (Z.pow_neg_r 2 d) in Hd by lia. lia. }
  destruct (Z.lt_trichotomy (Zdigits2 m) d) as [Hlt|[Heq|Hgt]]; [|assumption|].
  - assert (2 ^ Zdigits2 m <= 2 ^ (d - 1)) by (apply Z.pow_le_mono_r; lia). lia.
  - assert (2 ^ d <= 2 ^ (Zdigits2 m - 1)) by (apply Z.pow_le_mono_r; lia). lia.
Qed.

Lemma loc_of_shr_record_of_loc m l :
  loc_of_shr_record (shr_record_of_loc m l) = l /\ shr_m (shr_record_of_loc m l) = m.
Proof. destruct l as [|[| |]]; split; reflexivity. Qed.

Lemma located_iter_shr_1 x (p : positive) : forall mrs e,
  0 <= shr_m mrs ->
  located x (shr_m mrs) e (loc_of_shr_record mrs) ->
  0 <= shr_m (SpecFloat.iter_pos shr_1 p mrs)
  /\ shr_m (SpecFloat.iter_pos shr_1 p mrs) = shr_m mrs / 2 ^ Z.pos p
  /\ located x (shr_m (SpecFloat.iter_pos shr_1 p mrs)) (e + Z.pos p)
       (loc_of_shr_record (SpecFloat.iter_pos shr_1 p mrs)).
Proof.
  assert (Hstep : forall mrs e, 0 <= shr_m mrs ->
            located x (shr_m mrs) e (loc_of_shr_record mrs) ->
            0 <= shr_m (shr_1 mrs)
            /\ shr_m (shr_1 mrs) = shr_m mrs / 2 ^ 1
            /\ located x (shr_m (shr_1 mrs)) (e + 1) (loc_of_shr_record (shr_1 mrs))).
  { intros mrs e Hm Hl. rewrite shr_1_m by assumption. repeat split.
    - apply Z.div_pos; lia.
    - rewrite <- (shr_1_m mrs Hm). now apply located_shr_1. }
  induction p as [p IH|p IH|]; intros mrs e Hm Hl; cbn [SpecFloat.iter_pos].
  - destruct (Hstep mrs e Hm Hl) as (H1 & H2 & H3).
    destruct (IH _ _ H1 H3) as (H4 & H5 & H6).
    destruct (IH _ _ H4 H6) as (H7 & H8 & H9).
    repeat split; [assumption| |].
    + rewrite H8, H5, H2. rewrite !Z.div_div by lia. f_equal.
      rewrite <- !Z.pow_add_r by lia. f_equal. lia.
    + replace (e + Z.pos p~1) with (e + 1 + Z.pos p + Z.pos p) by lia. assumption.
  - destruct (IH _ _ Hm Hl) as (H4 & H5 & H6).
    destruct (IH _ _ H4 H6) as (H7 & H8 & H9).
    repeat split; [assumption| |].
    + rewrite H8, H5. rewrite !Z.div_div by lia. f_equal.
      rewrite <- !Z.pow_add_r by lia. f_equal. lia.
    + replace (e + Z.pos p~0) with (e + Z.pos p + Z.pos p) by lia. assumption.
  - apply Hstep; assumption.
Qed.

Lemma fexp_normal g : -1074 <= g - 53 -> fexp 53 1024 g = g - 53.
Proof. unfold fexp, emin. lia. Qed.

(** What [shr_fexp] leaves: at most 53 digits, the same magnitude, and
    the position of [x] between the shifted mantissa and its successor. *)
Lemma shr_fexp_spec (x : Q) (m e : Z) (l : location) :
  0 < m ->
  located x m e l ->
  -1074 <= Zdigits2 m + e - 53 ->
  exists mrs,
    shr_fexp 53 1024 m e l = (mrs, Z.max e (Zdigits2 m + e - 53))
    /\ 0 < shr_m mrs
    /\ located x (shr_m mrs) (Z.max e (Zdigits2 m + e - 53)) (loc_of_shr_record mrs)
    /\ Zdigits2 (shr_m mrs) = Z.min (Zdigits2 m) 53
    /\ (Zdigits2 m <= 53 -> shr_m mrs = m /\ loc_of_shr_record mrs = l).
Proof.
  intros Hm Hl Hn.
  destruct (Zdigits2_bounds m Hm) as [Hd Hb].
  destruct (loc_of_shr_record_of_loc m l) as [Hloc Hrec].
  unfold shr_fexp. rewrite fexp_normal by assumption.
  set (d := Zdigits2 m) in *.
  destruct (d + e - 53 - e) as [|p|p] eqn:En; cbn [shr].
  - exists (shr_record_of_loc m l). rewrite Hloc, Hrec.
    replace (Z.max e (d + e - 53)) with e by lia.
    repeat split; try assumption; try lia.
    all: fold d; lia.
  - assert (Hdp : d = Z.pos p + 53) by lia.
    destruct (located_iter_shr_1 x p (shr_record_of_loc m l) e) as (H1 & H2 & H3).
    { rewrite Hrec. lia. }
    { now rewrite Hloc, Hrec. }
    rewrite Hrec in H2.
    exists (SpecFloat.iter_pos shr_1 p (shr_record_of_loc m l)).
    replace (Z.max e (d + e - 53)) with (e + Z.pos p) by lia.
    assert (Hm' : 2 ^ 52 <= m / 2 ^ Z.pos p < 2 ^ 53).
    { rewrite Hdp in Hb.
      replace (Z.pos p + 53 - 1) with (52 + Z.pos p) in Hb by lia.
      replace (Z.pos p + 53) with (53 + Z.pos p) in Hb by lia.
      rewrite !Z.pow_add_r in Hb by lia.
      assert (0 < 2 ^ Z.pos p) by (apply Z.pow_pos_nonneg; lia).
      split.
      - apply Z.div_le_lower_bound; lia.
      - apply Z.div_lt_upper_bound; lia. }
    rewrite <- H2 in Hm'.
    repeat split; try assumption; try lia.
    all: try (rewrite (Zdigits2_unique _ 53) by (cbn; lia)); fold d; try lia.
  - exists (shr_record_of_loc m l). rewrite Hloc, Hrec.
    replace (Z.max e (d + e - 53)) with e by lia.
    repeat split; try assumption; try lia.
    all: fold d; lia.
Qed.

Lemma round_nearest_even_spec (x : Q) (m e : Z) (l : location) :
  located x m e l ->
  (round_nearest_even m l = m \/ round_nearest_even m l = m + 1)
  /\ (x - (1 # 2) * pow2 e <= inject_Z (round_nearest_even m l) * pow2 e
      <= x + (1 # 2) * pow2 e)%Q
  /\ (l = loc_Exact -> (inject_Z (round_nearest_even m l) * pow2 e == x)%Q).
Proof.
  intros Hl. pose proof (pow2_pos e) as Hp.
  destruct l as [|[| |]]; cbn [located round_nearest_even] in *.
  - split; [now left|]. split; [lra|]. intros _. lra.
  - destruct Hl as [Hb He]. destruct (Z.even m).
    + split; [now left|]. split; [lra|discriminate].
    + rewrite inject_Z_plus. change (inject_Z 1) with 1%Q.
      split; [now right|]. split; [lra|discriminate].
  - destruct Hl as [Hb He]. split; [now left|]. split; [lra|discriminate].
  - destruct Hl as [Hb He]. rewrite inject_Z_plus. change (inject_Z 1) with 1%Q.
    split; [now right|]. split; [lra|discriminate].
Qed.

Lemma Zdigits2_le (a b : Z) : 0 < a -> a <= b -> Zdigits2 a <= Zdigits2 b.
Proof.
  intros Ha Hab.
  destruct (Zdigits2_bounds a Ha) as [Hda Hba].
  destruct (Zdigits2_bounds b ltac:(lia)) as [Hdb Hbb].
  assert (Hlt : 2 ^ (Zdigits2 a - 1) < 2 ^ Zdigits2 b) by lia.
  apply Z.pow_lt_mono_r_iff in Hlt; lia.
Qed.

Lemma Zdigits2_le_53 (a : Z) : 0 < a -> a < 2 ^ 53 -> Zdigits2 a <= 53.
Proof.
  intros Ha Hlt.
  destruct (Zdigits2_bounds a Ha) as [Hda Hba].
  assert (H : 2 ^ (Zdigits2 a - 1) < 2 ^ 53) by lia.
  apply Z.pow_lt_mono_r_iff in H; lia.
Qed.

Lemma Zdigits2_lt_pow (a d : Z) : 0 < a -> Zdigits2 a <= d -> a < 2 ^ d.
Proof.
  intros Ha Hd. destruct (Zdigits2_bounds a Ha) as [Hda Hba].
  assert (2 ^ Zdigits2 a <= 2 ^ d) by (apply Z.pow_le_mono_r; lia). lia.
Qed.

(** The magnitude of a value located at a positive mantissa. *)
Lemma located_bounds (x : Q) (m e : Z) (l : location) :
  0 < m -> located x m e l ->
  (pow2 (Zdigits2 m + e - 1) <= x < pow2 (Zdigits2 m + e))%Q.
Proof.
  intros Hm Hl. destruct (Zdigits2_bounds m Hm) as [Hd [Hlo Hhi]].
  pose proof (pow2_pos e) as Hp.
  replace (Zdigits2 m + e - 1) with ((Zdigits2 m - 1) + e) by lia.
  rewrite !pow2_add.
  rewrite (pow2_nonneg_Z (Zdigits2 m - 1)), (pow2_nonneg_Z (Zdigits2 m)) by lia.
  assert (H1 : (inject_Z (2 ^ (Zdigits2 m - 1)) <= inject_Z m)%Q) by (rewrite <- Zle_Qle; lia).
  assert (H2 : (inject_Z m + 1 <= inject_Z (2 ^ Zdigits2 m))%Q).
  { change 1%Q with (inject_Z 1). rewrite <- inject_Z_plus, <- Zle_Qle. lia. }
  revert H1 H2.
  generalize (inject_Z (2 ^ (Zdigits2 m - 1))) (inject_Z (2 ^ Zdigits2 m)).
  intros A B H1 H2.
  assert (H3 : (A * pow2 e <= inject_Z m * pow2 e)%Q).
  { apply Qmult_le_compat_r; lra. }
  assert (H4 : ((inject_Z m + 1) * pow2 e <= B * pow2 e)%Q).
  { apply Qmult_le_compat_r; lra. }
  destruct l as [|c]; cbn [located] in Hl.
  - rewrite Hl. split; lra.
  - destruct Hl as [[Hl1 Hl2] _]. split; lra.
Qed.

(** Rounding to nearest even: for a normal, non-overflowing magnitude the
    result is a finite float within half a unit in the last place. *)
Theorem binary_round_aux_correct (s : bool) (x : Q) (m e : Z) (l : location) :
  0 < m ->
  located x m e l ->
  l = loc_Exact \/ 53 <= Zdigits2 m ->
  -1021 <= Zdigits2 m + e <= 1023 ->
  e <= 971 ->
  exists m' e',
    binary_round_aux 53 1024 s m e l = S754_finite s m' e'
    /\ (x - pow2 (Zdigits2 m + e - 54) <= inject_Z (Z.pos m') * pow2 e'
        <= x + pow2 (Zdigits2 m + e - 54))%Q
    /\ (l = loc_Exact -> Zdigits2 m <= 53 -> (inject_Z (Z.pos m') * pow2 e' == x)%Q)
    /\ (53 <= Zdigits2 m -> Zdigits2 (Z.pos m') = 53).
Proof.
  intros Hm Hl Hcase Hg He.
  set (g := Zdigits2 m + e) in *.
  destruct (shr_fexp_spec x m e l Hm Hl ltac:(fold g; lia))
    as (mrs1 & E1 & Hpos1 & Hloc1 & Hdig1 & Hsame). fold g in E1, Hloc1.
  set (e1 := Z.max e (g - 53)) in *.
  destruct (round_nearest_even_spec x _ e1 _ Hloc1) as (Hmr & Herr & Hexact).
  set (mr := round_nearest_even (shr_m mrs1) (loc_of_shr_record mrs1)) in *.
  assert (Hmr_pos : 0 < mr) by lia.
  assert (Hm1 : shr_m mrs1 < 2 ^ 53) by (apply Zdigits2_lt_pow; lia).
  assert (Hg1 : Zdigits2 (shr_m mrs1) + e1 = g) by (unfold e1, g in *; lia).
  (* the error of the rounded mantissa, at the exponent e1 *)
  assert (Herr' : (x - pow2 (g - 54) <= inject_Z mr * pow2 e1 <= x + pow2 (g - 54))%Q
                  /\ (l = loc_Exact -> Zdigits2 m <= 53 -> (inject_Z mr * pow2 e1 == x)%Q)).
  { split.
    - destruct Hcase as [-> | Hd].
      + destruct (Z.le_gt_cases (Zdigits2 m) 53) as [Hle|Hgt].
        * destruct (Hsame Hle) as [_ Hloc]. specialize (Hexact Hloc).
          pose proof (pow2_pos (g - 54)). lra.
        * assert (Hp1 : (pow2 e1 == 2 * pow2 (g - 54))%Q).
          { replace e1 with ((g - 54) + 1) by (unfold e1; lia). apply pow2_succ. }
          rewrite Hp1 in Herr |- *. lra.
      + assert (Hp1 : (pow2 e1 == 2 * pow2 (g - 54))%Q).
        { replace e1 with ((g - 54) + 1) by (unfold e1, g; lia). apply pow2_succ. }
        rewrite Hp1 in Herr |- *. lra.
    - intros Hex Hle. destruct (Hsame Hle) as [_ Hloc]. subst l. now apply Hexact. }
  destruct Herr' as [Hbound Hexact'].
  destruct (Z.lt_ge_cases mr (2 ^ 53)) as [Hlt|Hge].
  - (* no carry out of the mantissa *)
    pose proof (Zdigits2_le_53 mr Hmr_pos Hlt) as Hdmr.
    pose proof (Zdigits2_le (shr_m mrs1) mr Hpos1 ltac:(lia)) as Hmono.
    destruct (shr_fexp_spec (inject_Z mr * pow2 e1) mr e1 loc_Exact Hmr_pos)
      as (mrs2 & E2 & Hpos2 & _ & _ & Hsame2).
    { cbn [located]. reflexivity. }
    { lia. }
    destruct (Hsame2 Hdmr) as [Hm2 _].
    replace (Z.max e1 (Zdigits2 mr + e1 - 53)) with e1 in E2 by lia.
    unfold binary_round_aux. rewrite E1. fold mr. rewrite E2, Hm2.
    destruct mr as [|pm|pm]; try lia.
    exists pm, e1.
    destruct (Z.leb_spec e1 (1024 - 53)) as [_|Hbad]; [|unfold e1 in Hbad; lia].
    repeat split; try apply Hbound; [exact Hexact'|].
    intros Hd. lia.
  - (* the mantissa was rounded up to 2^53 *)
    assert (Hmr53 : mr = 2 ^ 53) by lia.
    assert (Hd1 : Zdigits2 (shr_m mrs1) = 53).
    { apply Zdigits2_unique; [|assumption]. change (53 - 1) with 52.
      assert (2 ^ 53 = 2 * 2 ^ 52) by reflexivity. lia. }
    assert (He1 : e1 = g - 53) by lia.
    assert (E2 : shr_fexp 53 1024 mr e1 loc_Exact
                 = (Build_shr_record (2 ^ 52) false false, e1 + 1)).
    { rewrite Hmr53. unfold shr_fexp. change (Zdigits2 (2 ^ 53)) with 54.
      rewrite fexp_normal by lia.
      replace (54 + e1 - 53 - e1) with 1 by lia. reflexivity. }
    unfold binary_round_aux. rewrite E1. fold mr. rewrite E2. cbn [shr_m].
    change (2 ^ 52) with (Z.pos (2 ^ 52)).
    exists (2 ^ 52)%positive, (e1 + 1).
    destruct (Z.leb_spec (e1 + 1) (1024 - 53)) as [_|Hbad]; [|lia].
    assert (Hval : (inject_Z (Z.pos (2 ^ 52)) * pow2 (e1 + 1) == inject_Z mr * pow2 e1)%Q).
    { rewrite Hmr53, pow2_succ.
      change (inject_Z (2 ^ 53)) with (2 * inject_Z (Z.pos (2 ^ 52)))%Q. ring. }
    repeat split; try (rewrite Hval; apply Hbound).
    intros Hex Hle. rewrite Hval. now apply Hexact'.
Qed.

Lemma pow2_m53 : (pow2 (-53) == eps)%Q.
Proof. reflexivity. Qed.

Lemma pow2_le_inv_lt a b (x : Q) : (pow2 a <= x)%Q -> (x < pow2 b)%Q -> a < b.
Proof. intros H1 H2. apply pow2_lt_inv. lra. Qed.

Lemma binary_round_aux_rel (s : bool) (x : Q) (m e : Z) (l : location) :
  0 < m ->
  located x m e l ->
  l = loc_Exact \/ 53 <= Zdigits2 m ->
  (pow2 (-1022) <= x)%Q -> (x < pow2 1023)%Q ->
  e <= 971 ->
  exists m' e',
    binary_round_aux 53 1024 s m e l = S754_finite s m' e'
    /\ (x * (1 - eps) <= Fval m' e' <= x * (1 + eps))%Q
    /\ (l = loc_Exact -> Zdigits2 m <= 53 -> (Fval m' e' == x)%Q)
    /\ (53 <= Zdigits2 m -> Zdigits2 (Z.pos m') = 53).
Proof.
  intros Hm Hl Hcase Hlo Hhi He.
  destruct (located_bounds x m e l Hm Hl) as [Hb1 Hb2].
  pose proof (pow2_le_inv_lt _ _ _ Hlo Hb2) as Hg1.
  pose proof (pow2_le_inv_lt _ _ _ Hb1 Hhi) as Hg2.
  destruct (binary_round_aux_correct s x m e l Hm Hl Hcase ltac:(lia) He)
    as (m' & e' & E & Hbound & Hexact & Hnormal).
  exists m', e'. split; [exact E|]. split; [|split; [exact Hexact|exact Hnormal]].
  assert (Hp : (pow2 (Zdigits2 m + e - 54) == pow2 (Zdigits2 m + e - 1) * eps)%Q).
  { replace (Zdigits2 m + e - 54) with ((Zdigits2 m + e - 1) + (-53)) by lia.
    rewrite pow2_add, pow2_m53. reflexivity. }
  unfold Fval. rewrite Hp in Hbound. unfold eps in *. lra.
Qed.

Lemma Pos_iter_xO (p d : positive) : Z.pos (Pos.iter xO p d) = Z.pos p * 2 ^ Z.pos d.
Proof.
  induction d as [|d IH] using Pos.peano_ind.
  - cbn [Pos.iter]. lia.
  - rewrite Pos.iter_succ, Pos2Z.inj_xO, IH, Pos2Z.inj_succ, Z.pow_succ_r by lia. lia.
Qed.

Lemma Zdigits2_mul_pow2 (m k : Z) :
  0 < m -> 0 <= k -> Zdigits2 (m * 2 ^ k) = Zdigits2 m + k.
Proof.
  intros Hm Hk. destruct (Zdigits2_bounds m Hm) as [Hd [Hlo Hhi]].
  assert (Hp : 0 < 2 ^ k) by (apply Z.pow_pos_nonneg; lia).
  apply Zdigits2_unique; [|nia].
  replace (Zdigits2 m + k - 1) with ((Zdigits2 m - 1) + k) by lia.
  rewrite !Z.pow_add_r by lia. nia.
Qed.

Lemma pow2_opp_r e : (pow2 e * pow2 (- e) == 1)%Q.
Proof. rewrite <- pow2_add. replace (e + - e) with 0 by lia. reflexivity. Qed.

Lemma pow2_opp_l e : (pow2 (- e) * pow2 e == 1)%Q.
Proof. rewrite Qmult_comm. apply pow2_opp_r. Qed.

(** [binary_round] of a positive integer below 2^1000: finite, with a
    mantissa of 53 digits, within relative error 2^-53, and exact below
    2^53. *)
Lemma binary_round_int (s : bool) (p : positive) :
  Z.pos p < 2 ^ 1000 ->
  exists m e,
    binary_round 53 1024 s p 0 = S754_finite s m e
    /\ Zdigits2 (Z.pos m) = 53
    /\ (inject_Z (Z.pos p) * (1 - eps) <= Fval m e <= inject_Z (Z.pos p) * (1 + eps))%Q
    /\ (Z.pos p < 2 ^ 53 -> (Fval m e == inject_Z (Z.pos p))%Q).
Proof.
  intros Hp.
  destruct (Zdigits2_bounds (Z.pos p) ltac:(lia)) as [Hd [Hlo Hhi]].
  cbn [Zdigits2] in *. set (d := Z.pos (digits2_pos p)) in *.
  assert (Hd1000 : d <= 1000).
  { assert (H : 2 ^ (d - 1) < 2 ^ 1000) by lia.
    apply Z.pow_lt_mono_r_iff in H; lia. }
  assert (Hsmall : Z.pos p < 2 ^ 53 -> d <= 53).
  { intros Hlt. assert (H : 2 ^ (d - 1) < 2 ^ 53) by lia.
    apply Z.pow_lt_mono_r_iff in H; lia. }
  set (x := inject_Z (Z.pos p)).
  assert (Hx1 : (pow2 (-1022) <= x)%Q).
  { assert (H1 : (pow2 (-1022) <= pow2 0)%Q) by (apply pow2_le; lia).
    assert (H2 : (inject_Z 1 <= x)%Q) by (unfold x; rewrite <- Zle_Qle; lia).
    change (pow2 0) with 1%Q in H1. change (inject_Z 1) with 1%Q in H2. lra. }
  assert (Hx2 : (x < pow2 1023)%Q).
  { assert (H1 : (pow2 1000 < pow2 1023)%Q) by (apply pow2_lt; lia).
    rewrite (pow2_nonneg_Z 1000) in H1 by lia.
    assert (H2 : (x < inject_Z (2 ^ 1000))%Q) by (unfold x; rewrite <- Zlt_Qlt; lia).
    lra. }
  (* the mantissa and exponent that [shl_align] hands to the rounding *)
  assert (Halign : exists mz ez,
             shl_align p 0 (fexp 53 1024 (Z.pos (digits2_pos p) + 0)) = (mz, ez)
             /\ ez <= 0 /\ Z.pos mz = Z.pos p * 2 ^ (- ez)
             /\ (d <= 53 -> ez = d - 53)).
  { unfold shl_align. fold d. rewrite fexp_normal by lia.
    destruct (d + 0 - 53 - 0) as [|k|k] eqn:Ek.
    - exists p, 0. repeat split; lia.
    - exists p, 0. repeat split; lia.
    - exists (Pos.iter xO p k), (d + 0 - 53). rewrite Pos_iter_xO.
      repeat split; try lia. f_equal. f_equal. lia. }
  destruct Halign as (mz & ez & Ealign & Hez & Hmz & Hezd).
  assert (Hdig : Zdigits2 (Z.pos mz) = d - ez).
  { rewrite Hmz, Zdigits2_mul_pow2 by lia. cbn [Zdigits2]. fold d. lia. }
  assert (H53 : 53 <= Zdigits2 (Z.pos mz)).
  { rewrite Hdig. destruct (Z.le_gt_cases d 53) as [Hle|Hgt]; [rewrite (Hezd Hle)|]; lia. }
  unfold binary_round. rewrite Ealign.
  destruct (binary_round_aux_rel s x (Z.pos mz) ez loc_Exact)
    as (m & e & E & Hb & Hex & Hnormal); try assumption; try lia.
  { cbn [located]. rewrite Hmz, inject_Z_mult.
    rewrite <- (pow2_nonneg_Z (- ez)) by lia.
    fold x. rewrite <- Qmult_assoc, pow2_opp_l. lra. }
  exists m, e. split; [exact E|]. split; [now apply Hnormal|]. split; [exact Hb|].
  intros Hlt. apply Hex; [reflexivity|]. rewrite Hdig, (Hezd (Hsmall Hlt)). lia.
Qed.

Lemma Fval_pos (m : positive) (e : Z) : (0 < Fval m e)%Q.
Proof.
  unfold Fval. pose proof (pow2_pos e).
  assert (0 < inject_Z (Z.pos m))%Q by (change 0%Q with (inject_Z 0); rewrite <- Zlt_Qlt; lia).
  nra.
Qed.

Lemma Fval_normal_bounds (m : positive) (e : Z) :
  Zdigits2 (Z.pos m) = 53 ->
  (pow2 (52 + e) <= Fval m e < pow2 (53 + e))%Q.
Proof.
  intros Hd.
  pose proof (located_bounds (Fval m e) (Z.pos m) e loc_Exact ltac:(lia)) as H.
  rewrite Hd in H. replace (53 + e - 1) with (52 + e) in H by lia.
  apply H. cbn [located]. reflexivity.
Qed.

(** Product of two finite floats with 53-digit mantissas. *)
Lemma SFmul_finite (s1 s2 : bool) (m1 m2 : positive) (e1 e2 : Z) :
  Zdigits2 (Z.pos m1) = 53 -> Zdigits2 (Z.pos m2) = 53 ->
  (pow2 (-1022) <= Fval m1 e1 * Fval m2 e2)%Q ->
  (Fval m1 e1 * Fval m2 e2 < pow2 1023)%Q ->
  exists m e,
    SFmul 53 1024 (S754_finite s1 m1 e1) (S754_finite s2 m2 e2)
    = S754_finite (xorb s1 s2) m e
    /\ Zdigits2 (Z.pos m) = 53
    /\ (Fval m1 e1 * Fval m2 e2 * (1 - eps) <= Fval m e
        <= Fval m1 e1 * Fval m2 e2 * (1 + eps))%Q.
Proof.
  intros Hd1 Hd2 Hlo Hhi.
  destruct (Fval_normal_bounds m1 e1 Hd1) as [Hb1 _].
  destruct (Fval_normal_bounds m2 e2 Hd2) as [Hb2 _].
  pose proof (pow2_pos (52 + e1)) as Hp1. pose proof (pow2_pos (52 + e2)) as Hp2.
  assert (Hprod : (pow2 (104 + e1 + e2) <= Fval m1 e1 * Fval m2 e2)%Q).
  { replace (104 + e1 + e2) with ((52 + e1) + (52 + e2)) by lia.
    rewrite pow2_add. nra. }
  pose proof (pow2_le_inv_lt _ _ _ Hprod Hhi) as He.
  assert (Hdig : 53 <= Zdigits2 (Z.pos m1 * Z.pos m2)).
  { destruct (Zdigits2_bounds (Z.pos m1) ltac:(lia)) as [_ [H1 _]].
    destruct (Zdigits2_bounds (Z.pos m2) ltac:(lia)) as [_ [H2 _]].
    rewrite Hd1 in H1. rewrite Hd2 in H2.
    change (53 - 1) with 52 in *.
    change 53 with (Zdigits2 (2 ^ 52)). apply Zdigits2_le; [reflexivity|].
    assert (0 < 2 ^ 52) by reflexivity. nia. }
  cbn [SFmul]. rewrite Pos2Z.inj_mul.
  destruct (binary_round_aux_rel (xorb s1 s2) (Fval m1 e1 * Fval m2 e2)
              (Z.pos m1 * Z.pos m2) (e1 + e2) loc_Exact)
    as (m & e & E & Hb & _ & Hnormal); try assumption; try lia.
  { cbn [located]. unfold Fval. rewrite inject_Z_mult, pow2_add. ring. }
  exists m, e. split; [exact E|]. split; [now apply Hnormal|exact Hb].
Qed.

Lemma new_location_spec (m2 r : Z) :
  0 <= r < m2 ->
  new_location m2 r = if r =? 0 then loc_Exact else loc_Inexact (2 * r ?= m2).
Proof.
  intros Hr. unfold new_location, new_location_even, new_location_odd.
  destruct (Z.even m2) eqn:Heven; [reflexivity|].
  destruct (r =? 0); [reflexivity|]. f_equal.
  assert (Hodd : Z.odd m2 = true) by (rewrite <- Z.negb_even, Heven; reflexivity).
  apply Z.odd_spec in Hodd. destruct Hodd as [k Hk].
  destruct (Z.compare_spec (2 * r + 1) m2), (Z.compare_spec (2 * r) m2);
    try reflexivity; lia.
Qed.

(** Quotient of two finite floats with 53-digit mantissas; [X] is the
    exact quotient of their magnitudes. *)
Lemma SFdiv_finite (s1 s2 : bool) (m1 m2 : positive) (e1 e2 : Z) (X : Q) :
  Zdigits2 (Z.pos m1) = 53 -> Zdigits2 (Z.pos m2) = 53 ->
  (X * Fval m2 e2 == Fval m1 e1)%Q ->
  -1000 <= e1 - e2 <= 1000 ->
  exists m e,
    SFdiv 53 1024 (S754_finite s1 m1 e1) (S754_finite s2 m2 e2)
    = S754_finite (xorb s1 s2) m e
    /\ Zdigits2 (Z.pos m) = 53
    /\ (X * (1 - eps) <= Fval m e <= X * (1 + eps))%Q.
Proof.
  intros Hd1 Hd2 HX He.
  destruct (Zdigits2_bounds (Z.pos m1) ltac:(lia)) as [_ [Hlo1 Hhi1]].
  destruct (Zdigits2_bounds (Z.pos m2) ltac:(lia)) as [_ [Hlo2 Hhi2]].
  rewrite Hd1 in Hlo1, Hhi1. rewrite Hd2 in Hlo2, Hhi2. change (53 - 1) with 52 in *.
  (* the integer division that [SFdiv_core_binary] performs *)
  pose proof (Z_div_mod (Z.pos m1 * 2 ^ 53) (Z.pos m2) ltac:(lia)) as Hdm.
  assert (Ecore : SFdiv_core_binary 53 1024 (Z.pos m1) e1 (Z.pos m2) e2
                  = (let '(q, r) := Z.div_eucl (Z.pos m1 * 2 ^ 53) (Z.pos m2) in
                     (q, e1 - e2 - 53, new_location (Z.pos m2) r))).
  { unfold SFdiv_core_binary. rewrite Hd1, Hd2.
    rewrite fexp_normal by lia.
    replace (Z.min (53 + e1 - (53 + e2) - 53) (e1 - e2)) with (e1 - e2 - 53) by lia.
    replace (e1 - e2 - (e1 - e2 - 53)) with 53 by lia.
    cbv iota. rewrite Z.shiftl_mul_pow2 by lia. reflexivity. }
  cbn [SFdiv]. rewrite Ecore.
  destruct (Z.div_eucl (Z.pos m1 * 2 ^ 53) (Z.pos m2)) as [q r].
  destruct Hdm as [Hqr Hr].
  assert (Hq : 2 ^ 52 <= q).
  { assert (0 < 2 ^ 52) by reflexivity. assert (2 ^ 53 = 2 * 2 ^ 52) by reflexivity. nia. }
  assert (Hdq : 53 <= Zdigits2 q).
  { change 53 with (Zdigits2 (2 ^ 52)). apply Zdigits2_le; [reflexivity|assumption]. }
  (* the exact quotient, in units of the new exponent *)
  set (P := pow2 (e1 - e2 - 53)).
  assert (HP : (0 < P)%Q) by apply pow2_pos.
  set (M2 := inject_Z (Z.pos m2)).
  assert (HM2 : (0 < M2)%Q) by (unfold M2; change 0%Q with (inject_Z 0); rewrite <- Zlt_Qlt; lia).
  assert (Hkey : (X * M2 == (inject_Z q * M2 + inject_Z r) * P)%Q).
  { assert (H1 : (X * M2 == inject_Z (Z.pos m1) * pow2 (e1 - e2))%Q).
    { unfold Fval in HX. fold M2 in HX.
      replace (e1 - e2) with (e1 + - e2) by lia. rewrite pow2_add.
      rewrite Qmult_assoc, <- HX.
      rewrite <- !Qmult_assoc, pow2_opp_r. ring. }
    assert (H2 : (inject_Z (Z.pos m1) * inject_Z (2 ^ 53)
                  == inject_Z q * M2 + inject_Z r)%Q).
    { unfold M2. rewrite <- !inject_Z_mult, <- inject_Z_plus.
      replace (q * Z.pos m2 + r) with (Z.pos m1 * 2 ^ 53) by lia. reflexivity. }
    rewrite H1, <- H2. unfold P.
    replace (e1 - e2) with (53 + (e1 - e2 - 53)) at 1 by lia.
    rewrite pow2_add, (pow2_nonneg_Z 53) by lia. ring. }
  assert (Hloc : located X q (e1 - e2 - 53) (new_location (Z.pos m2) r)).
  { rewrite new_location_spec by assumption. fold P.
    destruct (Z.eqb_spec r 0) as [->|Hr0]; cbn [located]; fold P.
    - change (inject_Z 0) with 0%Q in Hkey.
      apply (Qmult_inj_r _ _ M2); [lra|]. rewrite Hkey. ring.
    - assert (HR : (0 < inject_Z r)%Q)
        by (change 0%Q with (inject_Z 0); rewrite <- Zlt_Qlt; lia).
      assert (HRM : (inject_Z r < M2)%Q) by (unfold M2; rewrite <- Zlt_Qlt; lia).
      assert (HRP : (0 < inject_Z r * P)%Q) by nra.
      assert (HRMP : (inject_Z r * P < M2 * P)%Q) by nra.
      split; [split|].
      + apply (Qmult_lt_r _ _ M2); [assumption|]. rewrite Hkey. lra.
      + apply (Qmult_lt_r _ _ M2); [assumption|]. rewrite Hkey. lra.
      + destruct (Z.compare_spec (2 * r) (Z.pos m2)) as [Heq|Hlt|Hgt].
        * assert (H2 : (2 * inject_Z r == M2)%Q).
          { unfold M2. rewrite <- Heq, inject_Z_mult. reflexivity. }
          apply (Qmult_inj_r _ _ M2); [lra|]. rewrite Hkey. rewrite <- H2. ring.
        * assert (H2 : (2 * inject_Z r < M2)%Q).
          { unfold M2. change 2%Q with (inject_Z 2). rewrite <- inject_Z_mult, <- Zlt_Qlt. lia. }
          apply (Qmult_lt_r _ _ M2); [assumption|]. rewrite Hkey. nra.
        * assert (H2 : (M2 < 2 * inject_Z r)%Q).
          { unfold M2. change 2%Q with (inject_Z 2). rewrite <- inject_Z_mult, <- Zlt_Qlt. lia. }
          apply (Qmult_lt_r _ _ M2); [assumption|]. rewrite Hkey. nra. }
  (* the quotient lies far inside the normal range *)
  destruct (located_bounds X q (e1 - e2 - 53) _ ltac:(lia) Hloc) as [HbX1 HbX2].
  assert (HdqU : Zdigits2 q <= 54).
  { assert (Hlt : q < 2 ^ 54).
    { assert (2 ^ 54 = 2 * 2 ^ 53) by reflexivity. assert (0 < 2 ^ 53) by reflexivity. nia. }
    destruct (Zdigits2_bounds q ltac:(lia)) as [_ [Hl _]].
    assert (H : 2 ^ (Zdigits2 q - 1) < 2 ^ 54) by lia.
    apply Z.pow_lt_mono_r_iff in H; lia. }
  assert (HX1 : (pow2 (-1022) <= X)%Q).
  { assert (H : (pow2 (-1022) <= pow2 (Zdigits2 q + (e1 - e2 - 53) - 1))%Q) by (apply pow2_le; lia).
    lra. }
  assert (HX2 : (X < pow2 1023)%Q).
  { assert (H : (pow2 (Zdigits2 q + (e1 - e2 - 53)) <= pow2 1023)%Q) by (apply pow2_le; lia).
    lra. }
  destruct (binary_round_aux_rel (xorb s1 s2) X q (e1 - e2 - 53) _ ltac:(lia) Hloc)
    as (m & e & E & Hb & _ & Hnormal); try assumption; try lia.
  exists m, e. split; [exact E|]. split; [now apply Hnormal|exact Hb].
Qed.

(** ** Conversions between int64 and float64 *)

Lemma inject_Z_pos (z : Z) : 0 < z -> (0 < inject_Z z)%Q.
Proof. intros Hz. change 0%Q with (inject_Z 0). now rewrite <- Zlt_Qlt. Qed.

Lemma Fval_normal_exponent (m : positive) (e a b : Z) :
  Zdigits2 (Z.pos m) = 53 ->
  (pow2 a <= Fval m e)%Q -> (Fval m e < pow2 b)%Q ->
  a - 53 < e < b - 52.
Proof.
  intros Hd Ha Hb. destruct (Fval_normal_bounds m e Hd) as [H1 H2].
  pose proof (pow2_le_inv_lt _ _ _ Ha H2).
  pose proof (pow2_le_inv_lt _ _ _ H1 Hb). lia.
Qed.

(** [float64(z)] for an integer [z <> 0] of less than 64 bits: a finite
    float with the sign of [z] and a mantissa of 53 digits, within
    relative error 2^-53 of [z], and exact when [|z| < 2^53]. *)
Lemma of_int64_nonzero (z : Z) :
  z <> 0 -> - 2 ^ 64 < z < 2 ^ 64 ->
  exists m e,
    Float64.of_int64 z = S754_finite (z <? 0) m e
    /\ Zdigits2 (Z.pos m) = 53
    /\ (inject_Z (Z.abs z) * (1 - eps) <= Fval m e <= inject_Z (Z.abs z) * (1 + eps))%Q
    /\ (Z.abs z < 2 ^ 53 -> (Fval m e == inject_Z (Z.abs z))%Q)
    /\ -53 <= e <= 12.
Proof.
  intros Hz0 Hz.
  assert (Hgen : forall s p, Z.pos p < 2 ^ 64 ->
            exists m e,
              binary_round 53 1024 s p 0 = S754_finite s m e
              /\ Zdigits2 (Z.pos m) = 53
              /\ (inject_Z (Z.pos p) * (1 - eps) <= Fval m e
                  <= inject_Z (Z.pos p) * (1 + eps))%Q
              /\ (Z.pos p < 2 ^ 53 -> (Fval m e == inject_Z (Z.pos p))%Q)
              /\ -53 <= e <= 12).
  { intros s p Hp.
    destruct (binary_round_int s p) as (m & e & E & Hd & Hb & Hex).
    { assert (2 ^ 64 < 2 ^ 1000) by (apply Z.pow_lt_mono_r; lia). lia. }
    exists m, e. split; [exact E|]. split; [exact Hd|]. split; [exact Hb|].
    split; [exact Hex|].
    assert (H1 : (pow2 (-1) <= Fval m e)%Q).
    { assert (1 <= inject_Z (Z.pos p))%Q
        by (change 1%Q with (inject_Z 1); rewrite <- Zle_Qle; lia).
      change (pow2 (-1)) with (1 # 2). unfold eps in Hb. lra. }
    assert (H2 : (Fval m e < pow2 65)%Q).
    { assert (inject_Z (Z.pos p) <= inject_Z (2 ^ 64))%Q by (rewrite <- Zle_Qle; lia).
      rewrite (pow2_nonneg_Z 65) by lia.
      change (inject_Z (2 ^ 65)) with (2 * inject_Z (2 ^ 64))%Q.
      assert (0 < inject_Z (2 ^ 64))%Q by reflexivity.
      unfold eps in Hb. lra. }
    pose proof (Fval_normal_exponent m e _ _ Hd H1 H2). lia. }
  destruct z as [|p|p]; [contradiction| |].
  - apply (Hgen false p). lia.
  - apply (Hgen true p). lia.
Qed.

(** The integer part of a non-negative finite float. *)
Lemma trunc_finite (m : positive) (e : Z) :
  exists z,
    Float64.trunc (S754_finite false m e) = Some z
    /\ 0 <= z
    /\ (inject_Z z <= Fval m e < inject_Z z + 1)%Q.
Proof.
  exists (Z.shiftl (Z.pos m) e). cbn [Float64.trunc cond_Zopp].
  split; [reflexivity|]. split; [apply Z.shiftl_nonneg; lia|].
  unfold Fval. destruct (Z.le_gt_cases 0 e) as [He|He].
  - rewrite Z.shiftl_mul_pow2, inject_Z_mult, <- pow2_nonneg_Z by assumption. lra.
  - set (k := - e). assert (Hk : 0 < k) by (unfold k; lia).
    replace e with (- k) by (unfold k; lia).
    rewrite Z.shiftl_opp_r, Z.shiftr_div_pow2 by lia.
    assert (HD : 0 < 2 ^ k) by (apply Z.pow_pos_nonneg; lia).
    pose proof (Z_div_mod (Z.pos m) (2 ^ k) ltac:(lia)) as Hdm.
    unfold Z.div. destruct (Z.div_eucl (Z.pos m) (2 ^ k)) as [q r].
    destruct Hdm as [Hqr Hr]. cbn [fst].
    assert (Hinv : (inject_Z (Z.pos m) * pow2 (- k) * inject_Z (2 ^ k)
                    == inject_Z (Z.pos m))%Q).
    { rewrite <- pow2_nonneg_Z by lia. rewrite <- Qmult_assoc, pow2_opp_l. ring. }
    assert (HDq : (0 < inject_Z (2 ^ k))%Q) by now apply inject_Z_pos.
    assert (Hm : (inject_Z (Z.pos m) == inject_Z (2 ^ k) * inject_Z q + inject_Z r)%Q).
    { rewrite <- inject_Z_mult, <- inject_Z_plus, <- Hqr. reflexivity. }
    assert (Hr1 : (0 <= inject_Z r)%Q) by (change 0%Q with (inject_Z 0); rewrite <- Zle_Qle; lia).
    assert (Hr2 : (inject_Z r < inject_Z (2 ^ k))%Q) by (rewrite <- Zlt_Qlt; lia).
    split.
    + apply (Qmult_le_r _ _ (inject_Z (2 ^ k))); [assumption|].
      rewrite Hinv, Hm. lra.
    + apply (Qmult_lt_r _ _ (inject_Z (2 ^ k))); [assumption|].
      rewrite Hinv, Hm. lra.
Qed.

(** [int64(f)] for a non-negative finite [f] below 2^63. *)
Lemma to_int64_finite `{Platform} (m : positive) (e : Z) :
  (Fval m e < inject_Z (2 ^ 63))%Q ->
  0 <= Float64.to_int64 (S754_finite false m e)
  /\ (inject_Z (Float64.to_int64 (S754_finite false m e)) <= Fval m e
      < inject_Z (Float64.to_int64 (S754_finite false m e)) + 1)%Q.
Proof.
  intros Hlt. destruct (trunc_finite m e) as (z & E & Hz & Hb).
  unfold Float64.to_int64. rewrite E.
  assert (Hr : Int64.in_range z = true).
  { unfold Int64.in_range, Int64.min_int, Int64.max_int.
    assert (Hz63 : z < 2 ^ 63) by (rewrite Zlt_Qlt; lra).
    apply andb_true_intro. split; [apply Z.leb_le | apply Z.leb_le]; lia. }
  rewrite Hr. split; assumption.
Qed.

(** ** The weighted count of the previous window *)

(** The quotient [float64(o) / float64(u)] for [0 < o <= u]: a positive
    finite float within one rounding of the exact quotient [X] of the
    two converted values, which is itself within two roundings of
    [o / u]. *)
Lemma ratio_finite (o u : Z) :
  0 < o <= u -> u < 2 ^ 64 ->
  exists m e X,
    Float64.div (Float64.of_int64 o) (Float64.of_int64 u) = S754_finite false m e
    /\ Zdigits2 (Z.pos m) = 53
    /\ (X * (1 - eps) <= Fval m e <= X * (1 + eps))%Q
    /\ (pow2 (-66) <= X)%Q
    /\ (X * inject_Z u * (1 - eps) <= inject_Z o * (1 + eps))%Q
    /\ (inject_Z o * (1 - eps) <= X * inject_Z u * (1 + eps))%Q.
Proof.
  intros Ho Hu.
  destruct (of_int64_nonzero o ltac:(lia) ltac:(lia)) as (ma & ea & Ea & Hda & Hba & _ & Hea).
  destruct (of_int64_nonzero u ltac:(lia) ltac:(lia)) as (mb & eb & Eb & Hdb & Hbb & _ & Heb).
  replace (o <? 0) with false in Ea by (symmetry; apply Z.ltb_ge; lia).
  replace (u <? 0) with false in Eb by (symmetry; apply Z.ltb_ge; lia).
  rewrite (Z.abs_eq o) in * by lia. rewrite (Z.abs_eq u) in * by lia.
  pose proof (Fval_pos ma ea) as Hpa. pose proof (Fval_pos mb eb) as Hpb.
  set (X := (Fval ma ea / Fval mb eb)%Q).
  assert (HX : (X * Fval mb eb == Fval ma ea)%Q).
  { unfold X. field. intros H0. rewrite H0 in Hpb. lra. }
  destruct (SFdiv_finite false false ma mb ea eb X Hda Hdb HX ltac:(lia))
    as (m & e & E & Hd & Hb).
  exists m, e, X. unfold Float64.div. rewrite Ea, Eb.
  split; [exact E|]. split; [exact Hd|]. split; [exact Hb|].
  assert (HO : (1 <= inject_Z o)%Q) by (change 1%Q with (inject_Z 1); rewrite <- Zle_Qle; lia).
  assert (HOU : (inject_Z o <= inject_Z u)%Q) by (rewrite <- Zle_Qle; lia).
  assert (HU : (inject_Z u <= inject_Z (2 ^ 64))%Q) by (rewrite <- Zle_Qle; lia).
  set (O := inject_Z o) in *. set (U := inject_Z u) in *.
  set (A := Fval ma ea) in *. set (B := Fval mb eb) in *.
  change (inject_Z (2 ^ 64)) with 18446744073709551616%Q in HU.
  unfold eps in *.
  assert (HX66 : (pow2 (-66) <= X)%Q).
  { apply (Qmult_le_r _ _ B); [assumption|]. rewrite HX.
    change (pow2 (-66)) with (1 # 73786976294838206464). lra. }
  assert (HX0 : (0 < X)%Q).
  { change (pow2 (-66)) with (1 # 73786976294838206464) in HX66. lra. }
  assert (H1 : (X * (U * (1 - (1 # 9007199254740992))) <= X * B)%Q)
    by (apply Qmult_le_l; [assumption|lra]).
  assert (H2 : (X * B <= X * (U * (1 + (1 # 9007199254740992))))%Q)
    by (apply Qmult_le_l; [assumption|lra]).
  rewrite HX in H1, H2.
  split; [exact HX66|]. split; lra.
Qed.

(** The weighted count of an empty previous window is 0. *)
Lemma weighted_zero `{Platform} (o u : Z) :
  o <> 0 -> u <> 0 -> - 2 ^ 64 < o < 2 ^ 64 -> - 2 ^ 64 < u < 2 ^ 64 ->
  weighted 0 o u = 0.
Proof.
  intros Ho Hu Hor Hur.
  destruct (of_int64_nonzero o Ho Hor) as (ma & ea & Ea & Hda & _ & _ & Hea).
  destruct (of_int64_nonzero u Hu Hur) as (mb & eb & Eb & Hdb & _ & _ & Heb).
  pose proof (Fval_pos mb eb) as Hpb.
  assert (HX : (Fval ma ea / Fval mb eb * Fval mb eb == Fval ma ea)%Q).
  { field. intros H0. rewrite H0 in Hpb. lra. }
  destruct (SFdiv_finite (o <? 0) (u <? 0) ma mb ea eb _ Hda Hdb HX ltac:(lia))
    as (m & e & E & _).
  unfold weighted, Float64.div, Float64.mul, Float64.prec, Float64.emax.
  rewrite Ea, Eb, E. reflexivity.
Qed.

(** The weighted count for a non-empty previous window: the integer
    part of a value [V] within two roundings of [E], which is itself
    within two roundings of the exact [p * o / u]. *)
Lemma weighted_value `{Platform} (p o u : Z) :
  0 < p <= 2 ^ 50 -> 0 < o <= u -> u < 2 ^ 64 ->
  exists E V : Q,
    (E * inject_Z u * (1 - eps) <= inject_Z p * inject_Z o * (1 + eps))%Q
    /\ (inject_Z p * inject_Z o * (1 - eps) <= E * inject_Z u * (1 + eps))%Q
    /\ (E * ((1 - eps) * (1 - eps)) <= V <= E * ((1 + eps) * (1 + eps)))%Q
    /\ 0 <= weighted p o u
    /\ (inject_Z (weighted p o u) <= V < inject_Z (weighted p o u) + 1)%Q.
Proof.
  intros Hp Ho Hu.
  destruct (ratio_finite o u Ho Hu) as (m & e & X & Er & Hd & Hb & HXlo & HX1 & HX2).
  destruct (of_int64_nonzero p ltac:(lia) ltac:(lia)) as (mc & ec & Ec & Hdc & _ & Hxc & _).
  replace (p <? 0) with false in Ec by (symmetry; apply Z.ltb_ge; lia).
  rewrite (Z.abs_eq p) in Hxc by lia.
  assert (Hp53 : p < 2 ^ 53).
  { assert (2 ^ 50 < 2 ^ 53) by (apply Z.pow_lt_mono_r; lia). lia. }
  specialize (Hxc Hp53).
  assert (HP1 : (1 <= inject_Z p)%Q) by (change 1%Q with (inject_Z 1); rewrite <- Zle_Qle; lia).
  assert (HP2 : (inject_Z p <= inject_Z (2 ^ 50))%Q) by (rewrite <- Zle_Qle; lia).
  assert (HU : (0 < inject_Z u)%Q) by (apply inject_Z_pos; lia).
  assert (HOU : (inject_Z o <= inject_Z u)%Q) by (rewrite <- Zle_Qle; lia).
  change (inject_Z (2 ^ 50)) with 1125899906842624%Q in HP2.
  change (pow2 (-66)) with (1 # 73786976294838206464) in HXlo.
  pose proof (Fval_pos m e) as Hr0.
  set (P := inject_Z p) in *. set (R := Fval m e) in *.
  set (O := inject_Z o) in *. set (U := inject_Z u) in *.
  unfold eps in *.
  (* the quotient is at most (1 + eps) / (1 - eps) *)
  assert (HXle : (X * (1 - (1 # 9007199254740992)) <= 1 + (1 # 9007199254740992))%Q).
  { apply (Qmult_le_r _ _ U); [assumption|]. lra. }
  (* the product that is rounded, between bounds linear in [P * X] *)
  assert (HT1 : (P * X * (1 - (1 # 9007199254740992)) <= P * R)%Q).
  { rewrite <- Qmult_assoc. apply Qmult_le_l; lra. }
  assert (HT2 : (P * R <= P * X * (1 + (1 # 9007199254740992)))%Q).
  { rewrite <- Qmult_assoc. apply Qmult_le_l; lra. }
  assert (HT3 : (P * (1 # 73786976294838206464) <= P * X)%Q) by (apply Qmult_le_l; lra).
  assert (HT4 : (P * X * (1 - (1 # 9007199254740992))
                 <= P * (1 + (1 # 9007199254740992)))%Q).
  { rewrite <- Qmult_assoc. apply Qmult_le_l; lra. }
  assert (HT5 : (P * (X * U * (1 - (1 # 9007199254740992)))
                 <= P * (O * (1 + (1 # 9007199254740992))))%Q) by (apply Qmult_le_l; lra).
  assert (HT6 : (P * (O * (1 - (1 # 9007199254740992)))
                 <= P * (X * U * (1 + (1 # 9007199254740992))))%Q) by (apply Qmult_le_l; lra).
  destruct (SFmul_finite false false mc m ec e Hdc Hd) as (mp & ep & Em & _ & Hbm).
  { rewrite Hxc. fold P R. change (pow2 (-1022)) with (/ inject_Z (2 ^ 1022)).
    assert (H1 : (/ inject_Z (2 ^ 1022) <= 1 # 147573952589676412928)%Q) by (vm_compute; discriminate).
    lra. }
  { rewrite Hxc. fold P R. rewrite (pow2_nonneg_Z 1023) by lia.
    assert (H1 : (4503599627370496 <= inject_Z (2 ^ 1023))%Q) by (vm_compute; discriminate).
    lra. }
  rewrite Hxc in Hbm. fold P R in Hbm. unfold eps in Hbm. cbn [xorb] in Em.
  destruct (to_int64_finite mp ep) as [Hw0 Hw].
  { change (inject_Z (2 ^ 63)) with 9223372036854775808%Q. lra. }
  exists (P * X)%Q, (Fval mp ep).
  unfold weighted, Float64.mul, Float64.div, Float64.prec, Float64.emax.
  unfold Float64.div, Float64.prec, Float64.emax in Er.
  rewrite Ec, Er, Em.
  split; [lra|]. split; [lra|]. split; [lra|]. split; [exact Hw0 | exact Hw].
Qed.

(** For a previous count up to 2^50 and an overlap of at most one unit,
    the weighted count lies between 0 and the previous count. *)
Lemma weighted_bounds `{Platform} (p o u : Z) :
  0 <= p <= 2 ^ 50 -> 0 < o <= u -> u < 2 ^ 64 ->
  0 <= weighted p o u <= p.
Proof.
  intros Hp Ho Hu. destruct (Z.eq_dec p 0) as [->|Hp0].
  - rewrite weighted_zero; lia.
  - destruct (weighted_value p o u ltac:(lia) Ho Hu) as (E & V & HE1 & _ & HV & Hw0 & Hw).
    split; [exact Hw0|].
    assert (HP1 : (1 <= inject_Z p)%Q) by (change 1%Q with (inject_Z 1); rewrite <- Zle_Qle; lia).
    assert (HP2 : (inject_Z p <= inject_Z (2 ^ 50))%Q) by (rewrite <- Zle_Qle; lia).
    change (inject_Z (2 ^ 50)) with 1125899906842624%Q in HP2.
    assert (HU : (0 < inject_Z u)%Q) by (apply inject_Z_pos; lia).
    assert (HOU : (inject_Z o <= inject_Z u)%Q) by (rewrite <- Zle_Qle; lia).
    assert (HPO : (inject_Z p * inject_Z o <= inject_Z p * inject_Z u)%Q)
      by (apply Qmult_le_l; lra).
    assert (HT : (E * (1 - eps) <= inject_Z p * (1 + eps))%Q).
    { apply (Qmult_le_r _ _ (inject_Z u)); [assumption|]. unfold eps in *. lra. }
    assert (Hlt : (inject_Z (weighted p o u) < inject_Z (p + 1))%Q).
    { rewrite inject_Z_plus. change (inject_Z 1) with 1%Q. unfold eps in *. lra. }
    rewrite <- Zlt_Qlt in Hlt. lia.
Qed.

(** The weighted count is within 1 of the exact floor. *)
Lemma weighted_error `{Platform} (p o u : Z) :
  0 <= p <= 2 ^ 50 -> 0 < o <= u -> u < 2 ^ 64 ->
  p * o / u - 1 <= weighted p o u <= p * o / u + 1.
Proof.
  intros Hp Ho Hu.
  destruct (Z.eq_dec p 0) as [->|Hp0].
  - rewrite weighted_zero by lia. rewrite Z.mul_0_l, Z.div_0_l by lia. lia.
  - destruct (weighted_value p o u ltac:(lia) Ho Hu) as (E & V & HE1 & HE2 & HV & Hw0 & Hw).
    assert (HU : (0 < inject_Z u)%Q) by (apply inject_Z_pos; lia).
    (* the floor [F] of the exact value, and [F <= p <= 2^50] *)
    set (F := p * o / u).
    assert (HF : F * u <= p * o < (F + 1) * u).
    { unfold F. pose proof (Z.mul_div_le (p * o) u ltac:(lia)).
      pose proof (Z.mul_succ_div_gt (p * o) u ltac:(lia)). lia. }
    assert (HF0 : 0 <= F) by (apply Z.div_pos; nia).
    assert (HFp : F <= 2 ^ 50).
    { assert (F <= p); [|lia]. apply Z.div_le_upper_bound; nia. }
    assert (HF1 : (inject_Z F * inject_Z u <= inject_Z p * inject_Z o)%Q).
    { rewrite <- !inject_Z_mult, <- Zle_Qle. lia. }
    assert (HF2 : (inject_Z p * inject_Z o < (inject_Z F + 1) * inject_Z u)%Q).
    { change 1%Q with (inject_Z 1).
      rewrite <- inject_Z_plus, <- !inject_Z_mult, <- Zlt_Qlt. lia. }
    assert (HFU : (inject_Z F * inject_Z u <= 1125899906842624 * inject_Z u)%Q).
    { apply Qmult_le_compat_r; [|lra].
      change 1125899906842624%Q with (inject_Z (2 ^ 50)). rewrite <- Zle_Qle. lia. }
    assert (HFU0 : (0 <= inject_Z F * inject_Z u)%Q).
    { apply Qmult_le_0_compat; [|lra].
      change 0%Q with (inject_Z 0). rewrite <- Zle_Qle. lia. }
    (* the rounded value, times [u] *)
    assert (HVU1 : (E * ((1 - eps) * (1 - eps)) * inject_Z u <= V * inject_Z u)%Q)
      by (apply Qmult_le_compat_r; lra).
    assert (HVU2 : (V * inject_Z u <= E * ((1 + eps) * (1 + eps)) * inject_Z u)%Q)
      by (apply Qmult_le_compat_r; lra).
    unfold eps in *.
    assert (H1 : (inject_Z (F - 2) < inject_Z (weighted p o u))%Q).
    { unfold Z.sub. rewrite inject_Z_plus. change (inject_Z (- (2))) with (-2)%Q.
      apply (Qmult_lt_r _ _ (inject_Z u)); [assumption|].
      assert (Hw1 : (V * inject_Z u < (inject_Z (weighted p o u) + 1) * inject_Z u)%Q)
        by (apply Qmult_lt_compat_r; lra).
      lra. }
    assert (H2 : (inject_Z (weighted p o u) < inject_Z (F + 2))%Q).
    { rewrite inject_Z_plus. change (inject_Z 2) with 2%Q.
      apply (Qmult_lt_r _ _ (inject_Z u)); [assumption|].
      assert (Hw1 : (inject_Z (weighted p o u) * inject_Z u <= V * inject_Z u)%Q)
        by (apply Qmult_le_compat_r; lra).
      lra. }
    rewrite <- Zlt_Qlt in H1, H2. lia.
Qed.

(** ** The windows of one client *)

Section Windows.
Context `{Platform}.

(** C1 (amended): when exactly one window has elapsed (the new
    previous window is the stored current window), [Allow] rolls the
    current window into the previous one and starts a fresh current
    window whose count stays 0: the triggering request is not counted,
    and the decision compares the weighted previous count plus 0 with
    [maxRequests]. *)
Theorem Allow_one_window_elapsed (r : Rule) (clock : Z) (l : Limiter) :
  Truncate (Now clock) (unit r) <> currWindow l ->
  Add (Truncate (Now clock) (unit r)) (Int64.neg (unit r)) = currWindow l ->
  snd (Allow r clock l)
    = mkLimiter (currWindow l) (currCounter l) (Truncate (Now clock) (unit r)) 0
  /\ fst (fst (Allow r clock l))
    = (Int64.add (weighted (currCounter l) (snd (fst (Allow r clock l))) (unit r)) 0
         <? maxRequests r).
Proof.
  intros Hne Heq.
  assert (Hadv : advance (Truncate (Now clock) (unit r))
                   (Add (Truncate (Now clock) (unit r)) (Int64.neg (unit r))) l
                 = mkLimiter (currWindow l) (currCounter l)
                     (Truncate (Now clock) (unit r)) 0).
  { unfold advance.
    apply Time_eqb_neq in Hne. rewrite Hne.
    apply Time_eqb_eq in Heq. now rewrite Heq. }
  unfold Allow. cbn [fst snd]. rewrite Hadv. split; [reflexivity|].
  unfold activeNumRequests. reflexivity.
Qed.

(** C5: with no rule set, [AllowRequest] answers [(true, -1)] and
    leaves the globals, and so every limiter, as they were. *)
Theorem AllowRequest_no_rule (clientId : string) (clock : Z) (g : Globals) :
  rule g = None ->
  AllowRequest clientId clock g = ((true, -1), g).
Proof.
  intros Hr. unfold AllowRequest. now rewrite Hr.
Qed.

(** C6 (amended): with a rule set, [AllowRequest] returns the overlap
    [unit - (now - truncate(now, unit))] as its duration on every
    call, admitted or rejected; it is the handler of the server that
    passes it on (as [X-RateLimit-Reset]) on a rejection only. *)
Theorem AllowRequest_duration_on_every_call (clientId : string) (clock : Z)
    (g : Globals) (r : Rule) (m : gmap string server.clientMetric) :
  rule g = Some r ->
  snd (fst (AllowRequest clientId clock g))
    = Int64.sub (unit r) (Sub (Now clock) (Truncate (Now clock) (unit r)))
  /\ server.RateLimitReset (fst (server.handler clientId clock (g, m)))
    = if fst (fst (AllowRequest clientId clock g)) then None
      else Some (snd (fst (AllowRequest clientId clock g))).
Proof.
  intros Hr. split.
  - rewrite (AllowRequest_rule _ _ _ _ Hr). cbn [fst snd]. apply Allow_duration.
  - unfold server.handler. cbn [fst snd].
    destruct (AllowRequest clientId clock g) as [[allowRequest timeLeft] g'].
    cbn [fst snd]. now destruct allowRequest.
Qed.




(** C9: with a rule of positive unit set, the duration that
    [AllowRequest] returns is [unit - (now - truncate(now, unit))] and
    lies in the half-open interval (0, unit]. *)
Theorem AllowRequest_duration_bounds (clientId : string) (clock : Z)
    (g : Globals) (r : Rule) :
  rule g = Some r ->
  0 < unit r <= Int64.max_int ->
  snd (fst (AllowRequest clientId clock g))
    = unit r - (clock - abs_ns (Truncate (Now clock) (unit r)))
  /\ 0 < snd (fst (AllowRequest clientId clock g)) <= unit r.
Proof.
  intros Hr Hu.
  rewrite (AllowRequest_rule _ _ _ _ Hr). cbn [fst snd].
  rewrite Allow_duration_pos by assumption.
  pose proof (Z.mod_pos_bound clock (unit r)).
  rewrite Truncate_pos by lia. cbn [abs_ns Now].
  pose proof (Z.div_mod clock (unit r)). lia.
Qed.

(** *** A client never seen before *)

Lemma overlap_range (r : Rule) (clock : Z) :
  unit r <> 0 -> Int64.min_int <= unit r <= Int64.max_int ->
  let o := overlap r (Now clock) (Truncate (Now clock) (unit r)) in
  o <> 0 /\ - 2 ^ 64 < o < 2 ^ 64 /\ (0 < unit r -> 0 < o <= unit r).
Proof.
  intros Hu0 Hu. unfold overlap.
  destruct (Z.lt_ge_cases 0 (unit r)) as [Hpos|Hneg].
  - rewrite Sub_Truncate_pos by lia.
    pose proof (Z.mod_pos_bound clock (unit r) Hpos).
    unfold Int64.sub. rewrite wrap_in_range;
      unfold Int64.min_int, Int64.max_int in *; lia.
  - unfold Truncate. destruct (Z.leb_spec (unit r) 0); [|lia].
    unfold Sub. rewrite Z.sub_diag. cbn [Int64.saturate].
    change (Int64.saturate 0) with 0.
    unfold Int64.sub. rewrite Z.sub_0_r, wrap_in_range by assumption.
    unfold Int64.min_int, Int64.max_int in *. lia.
Qed.

Lemma Allow_newLimiter (r : Rule) (clock : Z) :
  snd (Allow r clock newLimiter)
  = mkLimiter zero 0 (Truncate (Now clock) (unit r)) 0.
Proof.
  unfold Allow. cbn [snd]. unfold advance.
  assert (Hloc : forall d, loc (Truncate (Now clock) d) = LocLocal).
  { intros d. unfold Truncate. now destruct (d <=? 0). }
  assert (E1 : eqb (Truncate (Now clock) (unit r)) (currWindow newLimiter) = false).
  { unfold eqb. rewrite Hloc. cbn. apply andb_false_r. }
  assert (E2 : eqb (Add (Truncate (Now clock) (unit r)) (Int64.neg (unit r)))
                 (currWindow newLimiter) = false).
  { unfold eqb, Add. cbn [loc]. rewrite Hloc. cbn. apply andb_false_r. }
  now rewrite E1, E2.
Qed.

(** C10 (amended): for a client with no entry in the registry, under a
    rule with [maxRequests >= 1] and a unit other than 0 (of type
    [int64]), the
    fresh limiter has both counts 0, the estimate of the first request
    is 0 and the request is admitted. *)
Theorem first_request_admitted (clientId : string) (clock : Z) (g : Globals) (r : Rule) :
  rule g = Some r ->
  clientLimiterMap g !! clientId = None ->
  1 <= maxRequests r ->
  unit r <> 0 -> Int64.min_int <= unit r <= Int64.max_int ->
  fst (fst (AllowRequest clientId clock g)) = true
  /\ activeNumRequests r (Now clock) (snd (Allow r clock newLimiter)) = 0
  /\ prevCounter (snd (Allow r clock newLimiter)) = 0
  /\ currCounter (snd (Allow r clock newLimiter)) = 0.
Proof.
  intros Hr Hnone HM Hu0 Hu.
  assert (Hest : activeNumRequests r (Now clock) (snd (Allow r clock newLimiter)) = 0).
  { rewrite Allow_newLimiter. unfold activeNumRequests. cbn [prevCounter currWindow currCounter].
    destruct (overlap_range r clock Hu0 Hu) as (Ho0 & Hor & _).
    rewrite weighted_zero; try assumption.
    - reflexivity.
    - unfold Int64.min_int, Int64.max_int in Hu. lia. }
  split; [|split; [exact Hest|now rewrite Allow_newLimiter]].
  rewrite (AllowRequest_rule _ _ _ _ Hr), Hnone. cbn [default from_option id fst].
  unfold Allow in *. cbn [fst snd] in *. rewrite Hest.
  apply Z.ltb_lt. lia.
Qed.

(** *** A full window *)






(** *** The weighted count and the exact floor *)

Lemma weighted_overlap_zero (p u : Z) :
  u <> 0 -> - 2 ^ 64 < p < 2 ^ 64 -> - 2 ^ 64 < u < 2 ^ 64 ->
  weighted p 0 u = 0.
Proof.
  intros Hu Hpr Hur.
  destruct (of_int64_nonzero u Hu Hur) as (mb & eb & Eb & _).
  unfold weighted, Float64.div, Float64.mul. rewrite Eb.
  change (Float64.of_int64 0) with (S754_zero false). cbn [SFdiv].
  destruct (Z.eq_dec p 0) as [->|Hp0].
  - reflexivity.
  - destruct (of_int64_nonzero p Hp0 Hpr) as (mc & ec & Ec & _).
    rewrite Ec. reflexivity.
Qed.

(** The estimate and the duration of [Allow] are functions of the two
    counts, the current window, the unit and the clock alone. *)
Lemma Allow_deterministic (r1 r2 : Rule) (l1 l2 : Limiter) (clock : Z) :
  unit r1 = unit r2 ->
  prevCounter l1 = prevCounter l2 ->
  currCounter l1 = currCounter l2 ->
  currWindow l1 = currWindow l2 ->
  activeNumRequests r1 (Now clock) (snd (Allow r1 clock l1))
    = activeNumRequests r2 (Now clock) (snd (Allow r2 clock l2))
  /\ snd (fst (Allow r1 clock l1)) = snd (fst (Allow r2 clock l2)).
Proof.
  intros Hu Hp Hc Hw. rewrite !Allow_duration, Hu. split; [|reflexivity].
  unfold Allow. cbn [snd]. unfold activeNumRequests, overlap, advance.
  rewrite Hu, Hp, Hc, Hw.
  destruct (eqb _ (currWindow l2)); [reflexivity|].
  destruct (eqb _ (currWindow l2)); reflexivity.
Qed.

(** C7 (amended): for a previous count up to 2^50, an overlap between
    0 and the unit, and a positive unit (an [int64]), the weighted
    previous count that [Allow] computes in float64 differs from the
    exact integer [floor(prevCount * overlap / unit)] by at most 1;
    and the estimate and the duration that [Allow] returns are
    determined by the counts, the current window, the unit and the
    clock. *)
Theorem weighted_within_one_of_floor (p o u : Z) :
  0 <= p <= 2 ^ 50 -> 0 <= o <= u -> 0 < u <= Int64.max_int ->
  p * o / u - 1 <= weighted p o u <= p * o / u + 1
  /\ (forall (r1 r2 : Rule) (l1 l2 : Limiter) (clock : Z),
        unit r1 = u -> unit r2 = u ->
        prevCounter l1 = prevCounter l2 ->
        currCounter l1 = currCounter l2 ->
        currWindow l1 = currWindow l2 ->
        activeNumRequests r1 (Now clock) (snd (Allow r1 clock l1))
          = activeNumRequests r2 (Now clock) (snd (Allow r2 clock l2))
        /\ snd (fst (Allow r1 clock l1)) = snd (fst (Allow r2 clock l2))).
Proof.
  intros Hp Ho Hu. split.
  - assert (H63 : Int64.max_int < 2 ^ 64) by reflexivity.
    destruct (Z.eq_dec o 0) as [->|Ho0].
    + assert (H50 : 2 ^ 50 < 2 ^ 64) by (apply Z.pow_lt_mono_r; lia).
      rewrite weighted_overlap_zero by lia.
      rewrite Z.mul_0_r, Z.div_0_l by lia. lia.
    + apply weighted_error; lia.
  - intros r1 r2 l1 l2 clock Hu1 Hu2. apply Allow_deterministic. congruence.
Qed.

End Windows.

(** C4 (amended): [AddRule] validates nothing and reports nothing: for
    every [maxRequests] and [unit], non-positive ones too, the rule it is
    given becomes the active rule in place of the previous one, and the
    limiters of the clients stay as they were. *)
Theorem AddRule_installs (maxRequests : Z) (unit : Duration) (g : Globals) :
  rule (AddRule maxRequests unit g) = Some (mkRule maxRequests unit)
  /\ clientLimiterMap (AddRule maxRequests unit g) = clientLimiterMap g.
Proof.
  split; reflexivity.
Qed.

(** C4, counterexample: a call with a non-positive [maxRequests] and a
    non-positive [unit] replaces the rule that was stored before. *)
Lemma AddRule_non_positive_replaces :
  rule (AddRule 0 (-1) (AddRule 5 Second init)) = Some (mkRule 0 (-1))
  /\ rule (AddRule 0 (-1) (AddRule 5 Second init)) <> rule (AddRule 5 Second init).
Proof.
  split; [reflexivity | discriminate].
Qed.

(** ** The scenario of one client under 5 requests per second *)

(** C1, counterexample: after six requests in the window starting at 0
    (five admitted, the sixth rejected), the first request of the next
    window, at 1.2s, finds [prevCounter = 5] and an overlap of 0.8s; its
    own window count stays 0, the estimate is 4 + 0 and the request is
    admitted. *)
Lemma first_request_of_next_window_admitted :
  let clocks := [0; 100 * Millisecond; 200 * Millisecond; 300 * Millisecond;
                 400 * Millisecond; 500 * Millisecond] in
  let g := snd (@requests amd64 "A" clocks (AddRule 5 Second init)) in
  map fst (fst (@requests amd64 "A" clocks (AddRule 5 Second init)))
    = [true; true; true; true; true; false]
  /\ clientLimiterMap g !! "A" = Some (mkLimiter zero 0 (Now 0) 5)
  /\ @Allow amd64 (mkRule 5 Second) (1200 * Millisecond) (mkLimiter zero 0 (Now 0) 5)
     = ((true, 800 * Millisecond), mkLimiter (Now 0) 5 (Now Second) 0)
  /\ @activeNumRequests amd64 (mkRule 5 Second) (Now (1200 * Millisecond))
       (mkLimiter (Now 0) 5 (Now Second) 0) = 4.
Proof.
  vm_compute. repeat split; reflexivity.
Qed.

Lemma Allow_one_window_elapsed_witness :
  snd (@Allow amd64 (mkRule 2 Minute) (90 * Second) (mkLimiter zero 0 (Now 0) 7))
  = mkLimiter (Now 0) 7 (Now Minute) 0.
Proof.
  refine (proj1 (@Allow_one_window_elapsed amd64 (mkRule 2 Minute) (90 * Second)
                   (mkLimiter zero 0 (Now 0) 7) _ _)).
  - vm_compute. discriminate.
  - vm_compute. reflexivity.
Defined.

Lemma AllowRequest_no_rule_witness :
  @AllowRequest amd64 "A" 0 init = ((true, -1), init).
Proof.
  apply (@AllowRequest_no_rule amd64 "A" 0 init). reflexivity.
Defined.

(** C6, counterexample: an admitted request is answered with the
    overlap as its duration, here 0.5s. *)
Lemma admitted_request_returns_duration :
  fst (@AllowRequest amd64 "A" (500 * Millisecond) (AddRule 5 Second init))
  = (true, 500 * Millisecond).
Proof.
  vm_compute. reflexivity.
Qed.

Lemma AllowRequest_duration_on_every_call_witness :
  snd (fst (@AllowRequest amd64 "A" (500 * Millisecond) (AddRule 5 Second init)))
  = Int64.sub Second (Sub (Now (500 * Millisecond)) (Truncate (Now (500 * Millisecond)) Second)).
Proof.
  refine (proj1 (@AllowRequest_duration_on_every_call amd64 "A" (500 * Millisecond)
                   (AddRule 5 Second init) (mkRule 5 Second) ∅ _)).
  reflexivity.
Defined.


Lemma AllowRequest_duration_bounds_witness :
  0 < snd (fst (@AllowRequest amd64 "A" (1200 * Millisecond) (AddRule 5 Second init)))
  <= Second.
Proof.
  refine (proj2 (@AllowRequest_duration_bounds amd64 "A" (1200 * Millisecond)
                   (AddRule 5 Second init) (mkRule 5 Second) _ _)).
  - reflexivity.
  - vm_compute. split; [reflexivity | discriminate].
Defined.


Lemma first_request_admitted_witness :
  fst (fst (@AllowRequest amd64 "A" (1200 * Millisecond) (AddRule 5 Second init))) = true.
Proof.
  refine (proj1 (@first_request_admitted amd64 "A" (1200 * Millisecond)
                   (AddRule 5 Second init) (mkRule 5 Second) _ _ _ _ _)).
  - reflexivity.
  - reflexivity.
  - vm_compute. discriminate.
  - vm_compute. discriminate.
  - vm_compute. split; discriminate.
Defined.

(** ** Clocks and rules outside the amended claims *)



(** C10, counterexample: [AddRule] installs a unit of 0.  The ratio of
    the overlap to the unit is then 0/0, a NaN, and so is its product
    with the previous count 0; what [int64] makes of it is the
    platform's choice.  On amd64 the estimate of the first request of a
    new client is [-2^63], not 0 (the request is admitted); on a
    platform that saturates the estimate is [2^63 - 1] and the request
    is rejected. *)
Lemma zero_unit_first_request :
  let r := mkRule 1 0 in
  rule (AddRule 1 0 init) = Some r
  /\ clientLimiterMap (AddRule 1 0 init) !! "A" = None
  /\ @activeNumRequests amd64 r (Now 0) (snd (@Allow amd64 r 0 newLimiter)) = - 2 ^ 63
  /\ fst (fst (@AllowRequest amd64 "A" 0 (AddRule 1 0 init))) = true
  /\ @activeNumRequests saturating r (Now 0) (snd (@Allow saturating r 0 newLimiter))
     = 2 ^ 63 - 1
  /\ fst (fst (@AllowRequest saturating "A" 0 (AddRule 1 0 init))) = false.
Proof.
  vm_compute. repeat split; reflexivity.
Qed.

(** ** The weighted count in float64 *)

(** C7, counterexample: with 100 requests in the previous window and
    0.58s of a 1s unit left, the exact weighted count is 58, and the
    float64 computation of [Allow] yields 57 (0.58 is not a binary
    fraction, and 100 times its nearest float64 rounds below 58). *)
Lemma weighted_one_below_floor :
  0 <= 100 /\ 0 <= 580 * Millisecond <= Second /\ 0 < Second
  /\ 100 * (580 * Millisecond) / Second = 58
  /\ @weighted amd64 100 (580 * Millisecond) Second = 57.
Proof.
  vm_compute. repeat split; discriminate.
Qed.

(** The float64 computation can also exceed the exact floor by one. *)
Example weighted_one_above_floor :
  662806778768 * 174749 / 249955 = 463382696016
  /\ @weighted amd64 662806778768 174749 249955 = 463382696017.
Proof.
  vm_compute. split; reflexivity.
Qed.

Lemma weighted_within_one_of_floor_witness :
  100 * (580 * Millisecond) / Second - 1
  <= @weighted amd64 100 (580 * Millisecond) Second
  <= 100 * (580 * Millisecond) / Second + 1.
Proof.
  refine (proj1 (@weighted_within_one_of_floor amd64 100 (580 * Millisecond) Second _ _ _)).
  - vm_compute. split; discriminate.
  - vm_compute. split; discriminate.
  - vm_compute. split; [reflexivity | discriminate].
Defined.

(** ** One goroutine at a time *)

Section Goroutines.
Context `{Platform}.

Lemma goroutine_at (i : nat) (clientId : string) (at_ : schedule.pc) (s : schedule.State) :
  (i < length (schedule.goroutines s))%nat ->
  schedule.goroutines (schedule.goto i clientId at_ s) !! i = Some (clientId, at_).
Proof.
  intros Hi. unfold schedule.goto. cbn [schedule.goroutines].
  now apply list_lookup_insert_eq.
Qed.

Lemma pointers_valid_update (s : schedule.State) (l : schedule.ptr) (lim : Limiter) :
  pointers_valid s ->
  pointers_valid (schedule.mkState (schedule.rule s) (<[l := lim]> (schedule.heap s))
                    (schedule.clientLimiterMap s) (schedule.goroutines s)).
Proof.
  intros [Hv Hinj]. split; cbn [schedule.clientLimiterMap schedule.heap].
  - intros k p Hk. rewrite length_insert. now apply (Hv k).
  - exact Hinj.
Qed.

(** Updating the limiter that [clientId] points to is updating the
    limiter of [clientId]. *)
Lemma globals_of_update (s : schedule.State) (clientId : string) (l : schedule.ptr)
    (lim : Limiter) (gs : list (string * schedule.pc)) :
  pointers_valid s ->
  schedule.clientLimiterMap s !! clientId = Some l ->
  globals_of (schedule.mkState (schedule.rule s) (<[l := lim]> (schedule.heap s))
                (schedule.clientLimiterMap s) gs)
  = mkGlobals (schedule.rule s) (<[clientId := lim]> (clientLimiterMap (globals_of s))).
Proof.
  intros [Hv Hinj] Hk. unfold globals_of. cbn [schedule.rule schedule.heap
    schedule.clientLimiterMap clientLimiterMap]. f_equal.
  apply map_eq. intros k. rewrite lookup_omap.
  destruct (decide (clientId = k)) as [<-|Hne].
  - rewrite lookup_insert_eq, Hk. cbn.
    apply list_lookup_insert_eq. now apply (Hv clientId).
  - rewrite lookup_insert_ne, lookup_omap by assumption.
    destruct (schedule.clientLimiterMap s !! k) as [p|] eqn:Ep; [|reflexivity]. cbn.
    apply list_lookup_insert_ne. intros ->. apply Hne. now apply (Hinj clientId k p).
Qed.

(** Allocating a limiter for a [clientId] that has none. *)
Lemma globals_of_alloc (s : schedule.State) (clientId : string) (lim : Limiter)
    (gs : list (string * schedule.pc)) :
  pointers_valid s ->
  schedule.clientLimiterMap s !! clientId = None ->
  globals_of (schedule.mkState (schedule.rule s)
                (<[length (schedule.heap s) := lim]> (schedule.heap s ++ [newLimiter]))
                (<[clientId := length (schedule.heap s)]> (schedule.clientLimiterMap s)) gs)
  = mkGlobals (schedule.rule s) (<[clientId := lim]> (clientLimiterMap (globals_of s))).
Proof.
  intros [Hv Hinj] Hk. unfold globals_of. cbn [schedule.rule schedule.heap
    schedule.clientLimiterMap clientLimiterMap]. f_equal.
  apply map_eq. intros k. rewrite lookup_omap.
  destruct (decide (clientId = k)) as [<-|Hne].
  - rewrite !lookup_insert_eq. cbn.
    apply list_lookup_insert_eq. rewrite length_app. cbn. lia.
  - rewrite !lookup_insert_ne, lookup_omap by assumption.
    destruct (schedule.clientLimiterMap s !! k) as [p|] eqn:Ep; [|reflexivity]. cbn.
    pose proof (Hv k p Ep) as Hp.
    rewrite list_lookup_insert_ne by lia. now apply lookup_app_l.
Qed.

Lemma step_Returned (i : nat) (clientId : string) (clock : Z) (res : bool * Duration)
    (s : schedule.State) :
  schedule.goroutines s !! i = Some (clientId, schedule.Returned res) ->
  schedule.step i clock s = s.
Proof.
  intros Hi. unfold schedule.step. now rewrite Hi.
Qed.

(** The last step of a call: [l.Allow()] on the limiter [lim] that the
    goroutine holds. *)
Lemma step_AtAllow (i : nat) (clientId : string) (clock : Z) (l : schedule.ptr)
    (r : Rule) (lim : Limiter) (s : schedule.State) :
  schedule.goroutines s !! i = Some (clientId, schedule.AtAllow l) ->
  schedule.rule s = Some r ->
  schedule.heap s !! l = Some lim ->
  schedule.step i clock s
  = schedule.goto i clientId (schedule.Returned (fst (Allow r clock lim)))
      (schedule.mkState (schedule.rule s) (<[l := snd (Allow r clock lim)]> (schedule.heap s))
         (schedule.clientLimiterMap s) (schedule.goroutines s)).
Proof.
  intros Hi Hr Hl. unfold schedule.step. rewrite Hi, Hr, Hl.
  now destruct (Allow r clock lim).
Qed.

(** A goroutine that runs its four steps with no other goroutine in
    between decides as [AllowRequest] does, and leaves the globals that
    [AllowRequest] leaves. *)
Lemma goroutine_alone (i : nat) (clientId : string) (clock : Z) (s : schedule.State) :
  pointers_valid s ->
  schedule.goroutines s !! i = Some (clientId, schedule.AtNilCheck) ->
  exists res,
    schedule.goroutines (schedule.run [(i, clock); (i, clock); (i, clock); (i, clock)] s) !! i
    = Some (clientId, schedule.Returned res)
    /\ (res, globals_of (schedule.run [(i, clock); (i, clock); (i, clock); (i, clock)] s))
       = AllowRequest clientId clock (globals_of s).
Proof.
  intros Hs Hi. pose proof (lookup_lt_Some _ _ _ Hi) as Hlen.
  change (schedule.run [(i, clock); (i, clock); (i, clock); (i, clock)] s)
    with (schedule.step i clock (schedule.step i clock
            (schedule.step i clock (schedule.step i clock s)))).
  unfold AllowRequest. cbn [rule globals_of].
  (* the nil check *)
  assert (E1 : schedule.step i clock s
               = match schedule.rule s with
                 | None => schedule.goto i clientId (schedule.Returned (true, -1)) s
                 | Some _ => schedule.goto i clientId schedule.AtLoad s
                 end).
  { unfold schedule.step. now rewrite Hi. }
  rewrite E1. clear E1.
  destruct (schedule.rule s) as [r|] eqn:Hr.
  2:{ exists (true, -1).
      pose proof (goroutine_at i clientId (schedule.Returned (true, -1)) s Hlen) as H0.
      rewrite !(step_Returned i clientId clock (true, -1) _ H0).
      split; [exact H0|].
      unfold globals_of. cbn. now rewrite Hr. }
  (* the load *)
  set (s1 := schedule.goto i clientId schedule.AtLoad s).
  assert (E2 : schedule.step i clock s1
               = match schedule.clientLimiterMap s !! clientId with
                 | Some l => schedule.goto i clientId (schedule.AtAllow l) s1
                 | None => schedule.goto i clientId schedule.AtStore s1
                 end).
  { unfold schedule.step. unfold s1 at 1. now rewrite goroutine_at. }
  rewrite E2. clear E2.
  assert (Hlen1 : (i < length (schedule.goroutines s1))%nat).
  { unfold s1, schedule.goto. cbn [schedule.goroutines]. now rewrite length_insert. }
  assert (Hlook : clientLimiterMap (globals_of s) !! clientId
                  = schedule.clientLimiterMap s !! clientId
                      ≫= (fun l => schedule.heap s !! l)).
  { unfold globals_of. cbn [clientLimiterMap]. apply lookup_omap. }
  rewrite Hlook. clear Hlook.
  destruct (schedule.clientLimiterMap s !! clientId) as [l|] eqn:Hk; cbn [mbind option_bind].
  - (* a limiter exists *)
    pose proof (proj1 Hs clientId l Hk) as Hl.
    destruct (lookup_lt_is_Some_2 _ _ Hl) as [lim Hlim]. rewrite Hlim.
    set (s2 := schedule.goto i clientId (schedule.AtAllow l) s1).
    rewrite (step_AtAllow i clientId clock l r lim s2);
      [|now apply goroutine_at|exact Hr|exact Hlim].
    set (s3 := schedule.goto i clientId _ _).
    assert (H3 : schedule.goroutines s3 !! i
                 = Some (clientId, schedule.Returned (fst (Allow r clock lim)))).
    { apply goroutine_at. cbn [schedule.goroutines]. unfold s2, schedule.goto.
      cbn [schedule.goroutines]. now rewrite length_insert. }
    rewrite (step_Returned i clientId clock _ s3 H3).
    exists (fst (Allow r clock lim)). split; [exact H3|].
    unfold s3, schedule.goto.
    cbn [schedule.goroutines schedule.rule schedule.heap schedule.clientLimiterMap].
    change (schedule.rule s2) with (schedule.rule s).
    change (schedule.heap s2) with (schedule.heap s).
    change (schedule.clientLimiterMap s2) with (schedule.clientLimiterMap s).
    rewrite (globals_of_update s clientId l _ _ Hs Hk), Hr.
    now destruct (Allow r clock lim).
  - (* no limiter yet: allocate and store *)
    set (s2 := schedule.goto i clientId schedule.AtStore s1).
    assert (E3 : schedule.step i clock s2
                 = schedule.goto i clientId (schedule.AtAllow (length (schedule.heap s)))
                     (schedule.mkState (schedule.rule s) (schedule.heap s ++ [newLimiter])
                        (<[clientId := length (schedule.heap s)]> (schedule.clientLimiterMap s))
                        (schedule.goroutines s2))).
    { unfold schedule.step. unfold s2 at 1. now rewrite goroutine_at. }
    rewrite E3. clear E3.
    set (s3 := schedule.goto i clientId (schedule.AtAllow _) _).
    assert (Hlen2 : (i < length (schedule.goroutines s2))%nat).
    { unfold s2, schedule.goto. cbn [schedule.goroutines]. now rewrite length_insert. }
    rewrite (step_AtAllow i clientId clock (length (schedule.heap s)) r newLimiter s3);
      [|now apply goroutine_at|exact Hr|].
    2:{ unfold s3, schedule.goto. cbn [schedule.heap].
        now apply list_lookup_middle. }
    exists (fst (Allow r clock newLimiter)). split.
    + apply goroutine_at. cbn [schedule.goroutines]. unfold s3, schedule.goto.
      cbn [schedule.goroutines]. now rewrite length_insert.
    + unfold schedule.goto.
      cbn [schedule.goroutines schedule.rule schedule.heap schedule.clientLimiterMap].
      rewrite (globals_of_alloc s clientId _ _ Hs Hk), Hr.
      now destruct (Allow r clock newLimiter).
Qed.

End Goroutines.

(** ** Two goroutines and one new client *)

(** C3 (what the code does): two goroutines call [AllowRequest("A")]
    for a client not yet in the map, under the rule of 1 request per
    second.  When both run [Load] before either runs [Store], each
    allocates its own limiter: two limiters exist, the map keeps the
    second, each call updates a different limiter and both requests are
    admitted.  When the calls run one after the other there is one
    limiter and the second request is rejected, as [AllowRequest] called
    twice in sequence decides. *)
Theorem racing_first_requests :
  let racing := [(0, 0); (1, 0); (0, 0); (1, 0); (0, 0); (1, 0); (0, 0); (1, 0)]%nat in
  let serial := [(0, 0); (0, 0); (0, 0); (0, 0); (1, 0); (1, 0); (1, 0); (1, 0)]%nat in
  let start := schedule.spawn (Some (mkRule 1 Second)) "A" 2 in
  let raced := @schedule.run amd64 (map (fun '(i, c) => (i, Z.of_nat c)) racing) start in
  let queued := @schedule.run amd64 (map (fun '(i, c) => (i, Z.of_nat c)) serial) start in
  length (schedule.heap raced) = 2%nat
  /\ schedule.clientLimiterMap raced !! "A" = Some 1%nat
  /\ schedule.goroutines raced
     = [("A", schedule.Returned (true, Second)); ("A", schedule.Returned (true, Second))]
  /\ map currCounter (schedule.heap raced) = [0; 0]
  /\ length (schedule.heap queued) = 1%nat
  /\ schedule.goroutines queued
     = [("A", schedule.Returned (true, Second)); ("A", schedule.Returned (false, Second))]
  /\ map fst (fst (@requests amd64 "A" [0; 0] (AddRule 1 Second init))) = [true; false].
Proof.
  vm_compute. repeat split; reflexivity.
Qed.

(** * Further properties of the limiter *)

(** The three branches of [advance]. *)
Lemma advance_same (c p : Time) (l : Limiter) :
  c = currWindow l ->
  advance c p l
  = mkLimiter (prevWindow l) (prevCounter l) (currWindow l) (Int64.add (currCounter l) 1).
Proof.
  intros Hc. unfold advance. apply Time_eqb_eq in Hc. now rewrite Hc.
Qed.

Lemma advance_roll (c p : Time) (l : Limiter) :
  c <> currWindow l -> p = currWindow l ->
  advance c p l = mkLimiter (currWindow l) (currCounter l) c 0.
Proof.
  intros Hc Hp. unfold advance.
  apply Time_eqb_neq in Hc. apply Time_eqb_eq in Hp. now rewrite Hc, Hp.
Qed.

Lemma advance_reset (c p : Time) (l : Limiter) :
  c <> currWindow l -> p <> currWindow l ->
  advance c p l = mkLimiter zero 0 c 0.
Proof.
  intros Hc Hp. unfold advance.
  apply Time_eqb_neq in Hc. apply Time_eqb_neq in Hp. now rewrite Hc, Hp.
Qed.

Section Limiter.
Context `{Platform}.

(** What [advance] leaves of bounded counts: the previous count is one
    of the old counts or 0, the current count the old one plus one or 0. *)
Lemma advance_counts (c p : Time) (l : Limiter) (b : Z) :
  0 <= b < Int64.max_int ->
  0 <= prevCounter l <= b -> 0 <= currCounter l <= b ->
  0 <= prevCounter (advance c p l) <= b
  /\ 0 <= currCounter (advance c p l) <= b + 1.
Proof.
  intros Hb Hp Hc. unfold advance.
  destruct (eqb c (currWindow l)); [|destruct (eqb p (currWindow l))];
    cbn [prevCounter currCounter]; try lia.
  unfold Int64.add. rewrite wrap_in_range; unfold Int64.min_int, Int64.max_int in *; lia.
Qed.

(** X2: a request that falls neither in the window the limiter tracks
    nor in the one after it (the client stayed away for a window or
    more, or the wall clock stepped back) finds both counts reset: the
    previous window is dropped, the estimate is 0, and the request is
    admitted whenever [maxRequests >= 1]. *)
Theorem idle_client_reset (r : Rule) (seen clock : Z) (l : Limiter) :
  0 < unit r <= Int64.max_int ->
  currWindow l = Truncate (Now seen) (unit r) ->
  clock / unit r <> seen / unit r ->
  clock / unit r <> seen / unit r + 1 ->
  snd (Allow r clock l) = mkLimiter zero 0 (Truncate (Now clock) (unit r)) 0
  /\ activeNumRequests r (Now clock) (snd (Allow r clock l)) = 0
  /\ fst (fst (Allow r clock l)) = (0 <? maxRequests r).
Proof.
  intros Hu Hw Hsame Hnext.
  assert (Hadv : advance (Truncate (Now clock) (unit r))
                   (Add (Truncate (Now clock) (unit r)) (Int64.neg (unit r))) l
                 = mkLimiter zero 0 (Truncate (Now clock) (unit r)) 0).
  { apply advance_reset; rewrite Hw, !Truncate_pos by lia; cbn [abs_ns loc Now].
    - intros [= E1]. apply Z.mul_cancel_r in E1; [contradiction|lia].
    - unfold Int64.neg.
      rewrite wrap_in_range by (unfold Int64.min_int, Int64.max_int in *; lia).
      unfold Add. cbn [abs_ns loc]. intros [= E2].
      assert (E3 : clock / unit r * unit r = (seen / unit r + 1) * unit r) by lia.
      apply Z.mul_cancel_r in E3; [contradiction|lia]. }
  assert (Hest : activeNumRequests r (Now clock)
                   (mkLimiter zero 0 (Truncate (Now clock) (unit r)) 0) = 0).
  { unfold activeNumRequests. cbn [prevCounter currWindow currCounter].
    destruct (overlap_range r clock ltac:(lia)
                ltac:(unfold Int64.min_int, Int64.max_int in *; lia)) as (Ho0 & Hor & _).
    rewrite weighted_zero; try assumption; try reflexivity.
    - lia.
    - unfold Int64.max_int in Hu. lia. }
  unfold Allow. cbn [fst snd]. rewrite Hadv, Hest. repeat split.
Qed.

(** The first instant of the window after the one of [clock]. *)
Lemma window_end (u clock : Z) :
  0 < u ->
  clock + (u - clock mod u) = (clock / u + 1) * u
  /\ (clock + (u - clock mod u)) / u = clock / u + 1
  /\ (clock + (u - clock mod u)) mod u = 0.
Proof.
  intros Hu.
  pose proof (Z.mod_pos_bound clock u Hu) as Hm.
  pose proof (Z.div_mod clock u ltac:(lia)) as Hdm.
  assert (Hnext : clock + (u - clock mod u) = (clock / u + 1) * u) by lia.
  split; [exact Hnext|]. rewrite Hnext. split.
  - apply Z.div_mul. lia.
  - apply Z.mod_mul. lia.
Qed.

(** X3: the duration that [Allow] returns is the time left in the
    current window: a request made any shorter time later still falls in
    the same window, and one made exactly that much later falls on the
    first instant of the next window. *)
Theorem duration_reaches_next_window (r : Rule) (clock : Z) (l : Limiter) :
  0 < unit r <= Int64.max_int ->
  let d := snd (fst (Allow r clock l)) in
  (forall t, 0 <= t < d -> (clock + t) / unit r = clock / unit r)
  /\ (clock + d) / unit r = clock / unit r + 1
  /\ Truncate (Now (clock + d)) (unit r) = Now (clock + d).
Proof.
  intros Hu d. unfold d. rewrite Allow_duration_pos by assumption.
  pose proof (Z.mod_pos_bound clock (unit r) ltac:(lia)) as Hm.
  pose proof (Z.div_mod clock (unit r) ltac:(lia)) as Hdm.
  destruct (window_end (unit r) clock ltac:(lia)) as (Hnext & Hdiv & _).
  split; [|split].
  - intros t Ht. symmetry. apply (Z.div_unique_pos _ _ _ (clock mod unit r + t)); lia.
  - exact Hdiv.
  - rewrite Truncate_pos by lia. cbn [abs_ns loc Now]. unfold Now. f_equal.
    rewrite Hdiv. lia.
Qed.

(** X4: the duration is a hint, not a promise.  When the limiter has
    counted more than [maxRequests] requests in the current window, a
    retry made exactly when the returned duration has passed rolls the
    window, weighs the whole previous count, and is rejected again. *)
Theorem retry_after_burst_rejected (r : Rule) (clock : Z) (l : Limiter) :
  0 < unit r <= Int64.max_int ->
  0 <= maxRequests r ->
  maxRequests r + 1 <= currCounter (snd (Allow r clock l)) <= 2 ^ 50 ->
  fst (fst (Allow r (clock + snd (fst (Allow r clock l))) (snd (Allow r clock l)))) = false.
Proof.
  intros Hu HM Hc.
  rewrite (Allow_duration_pos r clock l Hu).
  destruct (window_end (unit r) clock ltac:(lia)) as (_ & Hnext & Hmod).
  set (d := unit r - clock mod unit r) in *.
  set (l1 := snd (Allow r clock l)) in *.
  assert (Hw1 : currWindow l1 = Truncate (Now clock) (unit r)).
  { unfold l1, Allow. cbn [snd]. apply currWindow_advance. }
  assert (H250 : 2 ^ 50 = 1125899906842624) by reflexivity.
  assert (Hadv : advance (Truncate (Now (clock + d)) (unit r))
                   (Add (Truncate (Now (clock + d)) (unit r)) (Int64.neg (unit r))) l1
                 = mkLimiter (currWindow l1) (currCounter l1)
                     (Truncate (Now (clock + d)) (unit r)) 0).
  { apply advance_roll; rewrite Hw1, !Truncate_pos by lia; cbn [abs_ns loc Now];
      rewrite Hnext.
    - intros [= E1]. lia.
    - unfold Int64.neg.
      rewrite wrap_in_range by (unfold Int64.min_int, Int64.max_int in *; lia).
      unfold Add. cbn [abs_ns loc]. f_equal. lia. }
  unfold Allow. cbn [fst snd]. rewrite Hadv.
  unfold activeNumRequests. cbn [prevCounter currWindow currCounter].
  assert (Ho : overlap r (Now (clock + d)) (Truncate (Now (clock + d)) (unit r)) = unit r).
  { unfold overlap. rewrite Sub_Truncate_pos by assumption.
    rewrite Hmod. unfold Int64.sub. rewrite Z.sub_0_r.
    apply wrap_in_range. unfold Int64.min_int, Int64.max_int in *. lia. }
  rewrite Ho.
  pose proof (weighted_error (currCounter l1) (unit r) (unit r) ltac:(lia) ltac:(lia)
                ltac:(unfold Int64.max_int in *; lia)) as Hw.
  rewrite Z.div_mul in Hw by lia.
  unfold Int64.add. rewrite wrap_in_range by (unfold Int64.min_int, Int64.max_int; lia).
  apply Z.ltb_ge. lia.
Qed.

(** X8: for bounded counts and a positive unit, the estimate that
    decides a request lies between the current count and the sum of the
    previous and the current count: the previous window never weighs
    more than it counted, and never less than nothing. *)
Theorem estimate_between_counts (r : Rule) (clock : Z) (l : Limiter) :
  0 < unit r <= Int64.max_int ->
  0 <= prevCounter l <= 2 ^ 50 -> 0 <= currCounter l <= 2 ^ 50 ->
  currCounter (snd (Allow r clock l))
  <= activeNumRequests r (Now clock) (snd (Allow r clock l))
  <= prevCounter (snd (Allow r clock l)) + currCounter (snd (Allow r clock l)).
Proof.
  intros Hu Hp Hc. unfold Allow. cbn [snd].
  assert (H250 : 2 ^ 50 = 1125899906842624) by reflexivity.
  destruct (advance_counts (Truncate (Now clock) (unit r))
              (Add (Truncate (Now clock) (unit r)) (Int64.neg (unit r))) l (2 ^ 50)
              ltac:(unfold Int64.max_int; lia) Hp Hc) as [Hp' Hc'].
  pose proof (currWindow_advance (Truncate (Now clock) (unit r))
                (Add (Truncate (Now clock) (unit r)) (Int64.neg (unit r))) l) as Hcw.
  set (l' := advance _ _ l) in *.
  unfold activeNumRequests. rewrite Hcw.
  destruct (overlap_range r clock ltac:(lia)
              ltac:(unfold Int64.min_int, Int64.max_int in *; lia)) as (_ & _ & Ho).
  pose proof (weighted_bounds (prevCounter l') _ (unit r) Hp' (Ho ltac:(lia))
                ltac:(unfold Int64.max_int in *; lia)) as Hw.
  unfold Int64.add. rewrite wrap_in_range by (unfold Int64.min_int, Int64.max_int; lia).
  lia.
Qed.

(** Counts after some calls: none yet on a new limiter, or counts that
    are not negative and together at most the calls but one. *)
Lemma counts_after_call (r : Rule) (clock k : Z) (l : Limiter) :
  0 <= k < Int64.max_int ->
  (k = 0 /\ l = newLimiter)
  \/ (1 <= k /\ 0 <= prevCounter l /\ 0 <= currCounter l
      /\ prevCounter l + currCounter l <= k - 1) ->
  0 <= prevCounter (snd (Allow r clock l))
  /\ 0 <= currCounter (snd (Allow r clock l))
  /\ prevCounter (snd (Allow r clock l)) + currCounter (snd (Allow r clock l)) <= k.
Proof.
  intros Hk [[-> ->]|(Hk1 & Hp & Hc & Hs)].
  - rewrite Allow_newLimiter. cbn. lia.
  - unfold Allow. cbn [snd]. unfold advance.
    destruct (eqb _ (currWindow l)); [|destruct (eqb _ (currWindow l))];
      cbn [prevCounter currCounter]; try lia.
    unfold Int64.add. rewrite wrap_in_range; unfold Int64.min_int, Int64.max_int in *; lia.
Qed.

(** X7: the counts of a limiter count requests.  After any calls of
    [Allow] on a limiter that started as [Limiter{}], at any clock
    readings and under any rule, neither count is negative, and the two
    together are at most the number of calls before the last one. *)
Theorem counts_bounded_by_calls (r : Rule) (clocks : list Z) (clock : Z) :
  Z.of_nat (length clocks) < Int64.max_int ->
  let l := snd (Allow r clock (calls r clocks newLimiter)) in
  0 <= prevCounter l /\ 0 <= currCounter l
  /\ prevCounter l + currCounter l <= Z.of_nat (length clocks).
Proof.
  intros Hlen l. unfold l. clear l. revert clock.
  induction clocks as [|c clocks IH] using rev_ind; intros clock.
  - apply counts_after_call; [cbn; unfold Int64.max_int; lia|]. now left.
  - rewrite length_app in *. cbn [length] in *.
    unfold calls. rewrite fold_left_app. cbn [fold_left]. fold (calls r clocks newLimiter).
    apply counts_after_call; [lia|]. right.
    specialize (IH ltac:(lia) c). cbn zeta in IH. lia.
Qed.

(** X9: [AddRule] accepts a [maxRequests] of 0 or less, and such a rule
    admits nothing: with a positive unit, every request of a client
    whose counts are bounded is rejected, the first one too. *)
Theorem non_positive_max_rejects (clientId : string) (clock : Z) (g : Globals) (r : Rule) :
  rule g = Some r ->
  maxRequests r <= 0 ->
  0 < unit r <= Int64.max_int ->
  0 <= prevCounter (limiterOf g clientId) <= 2 ^ 50 ->
  0 <= currCounter (limiterOf g clientId) <= 2 ^ 50 ->
  fst (fst (AllowRequest clientId clock g)) = false.
Proof.
  intros Hr HM Hu Hp Hc.
  rewrite (AllowRequest_rule _ _ _ _ Hr). cbn [fst].
  fold (limiterOf g clientId). set (l := limiterOf g clientId) in *.
  unfold Allow. cbn [fst snd].
  assert (H250 : 2 ^ 50 = 1125899906842624) by reflexivity.
  destruct (advance_counts (Truncate (Now clock) (unit r))
              (Add (Truncate (Now clock) (unit r)) (Int64.neg (unit r))) l (2 ^ 50)
              ltac:(unfold Int64.max_int; lia) Hp Hc) as [Hp' Hc'].
  pose proof (currWindow_advance (Truncate (Now clock) (unit r))
                (Add (Truncate (Now clock) (unit r)) (Int64.neg (unit r))) l) as Hcw.
  set (l' := advance _ _ l) in *.
  unfold activeNumRequests. rewrite Hcw.
  destruct (overlap_range r clock ltac:(lia)
              ltac:(unfold Int64.min_int, Int64.max_int in *; lia)) as (_ & _ & Ho).
  pose proof (weighted_bounds (prevCounter l') _ (unit r) Hp' (Ho ltac:(lia))
                ltac:(unfold Int64.max_int in *; lia)) as Hw.
  unfold Int64.add. rewrite wrap_in_range by (unfold Int64.min_int, Int64.max_int; lia).
  apply Z.ltb_ge. lia.
Qed.

End Limiter.

(** * Further properties of the registry of clients *)

Section Registry.
Context `{Platform}.

Lemma AllowRequest_no_rule_eq (clientId : string) (clock : Z) (g : Globals) :
  rule g = None -> AllowRequest clientId clock g = ((true, -1), g).
Proof.
  intros Hr. unfold AllowRequest. now rewrite Hr.
Qed.

Lemma limiterOf_AllowRequest (clientId : string) (clock : Z) (g : Globals) (r : Rule) :
  rule g = Some r ->
  rule (snd (AllowRequest clientId clock g)) = Some r
  /\ limiterOf (snd (AllowRequest clientId clock g)) clientId
     = snd (Allow r clock (limiterOf g clientId))
  /\ fst (AllowRequest clientId clock g) = fst (Allow r clock (limiterOf g clientId)).
Proof.
  intros Hr. rewrite (AllowRequest_rule _ _ _ _ Hr). cbn [fst snd rule].
  repeat split. unfold limiterOf at 1. cbn [clientLimiterMap].
  now rewrite lookup_insert_eq.
Qed.

(** A request of a limiter with no previous count, in the window the
    limiter tracks: one more is counted, and the count decides. *)
Lemma Allow_counting (r : Rule) (clock : Z) (l : Limiter) :
  unit r <> 0 -> Int64.min_int <= unit r <= Int64.max_int ->
  currWindow l = Truncate (Now clock) (unit r) ->
  prevCounter l = 0 ->
  0 <= currCounter l < Int64.max_int ->
  fst (fst (Allow r clock l)) = (currCounter l + 1 <? maxRequests r)
  /\ snd (Allow r clock l)
     = mkLimiter (prevWindow l) 0 (currWindow l) (currCounter l + 1).
Proof.
  intros Hu0 Hu Hw Hp Hc.
  assert (Hadv : advance (Truncate (Now clock) (unit r))
                   (Add (Truncate (Now clock) (unit r)) (Int64.neg (unit r))) l
                 = mkLimiter (prevWindow l) 0 (currWindow l) (currCounter l + 1)).
  { rewrite advance_same by now symmetry. rewrite Hp. f_equal.
    apply wrap_in_range. unfold Int64.min_int, Int64.max_int in *. lia. }
  unfold Allow. cbn [fst snd]. rewrite Hadv. split; [|reflexivity].
  unfold activeNumRequests. cbn [prevCounter currWindow currCounter]. rewrite Hw.
  destruct (overlap_range r clock Hu0 Hu) as (Ho0 & Hor & _).
  rewrite weighted_zero; try assumption.
  - unfold Int64.add. cbn [Z.add].
    now rewrite wrap_in_range by (unfold Int64.min_int, Int64.max_int in *; lia).
  - unfold Int64.min_int, Int64.max_int in Hu. lia.
Qed.

(** The first request of a limiter as [AllowRequest] creates it. *)
Lemma Allow_first (r : Rule) (clock : Z) :
  unit r <> 0 -> Int64.min_int <= unit r <= Int64.max_int ->
  fst (fst (Allow r clock newLimiter)) = (0 <? maxRequests r)
  /\ snd (Allow r clock newLimiter) = mkLimiter zero 0 (Truncate (Now clock) (unit r)) 0.
Proof.
  intros Hu0 Hu. split; [|apply Allow_newLimiter].
  pose proof (Allow_newLimiter r clock) as Hl.
  unfold Allow in *. cbn [fst snd] in *. rewrite Hl.
  unfold activeNumRequests. cbn [prevCounter currWindow currCounter].
  destruct (overlap_range r clock Hu0 Hu) as (Ho0 & Hor & _).
  rewrite weighted_zero; try assumption; [reflexivity|].
  unfold Int64.min_int, Int64.max_int in Hu. lia.
Qed.

Lemma requests_in_window (r : Rule) (clientId : string) (w : Time) (clocks : list Z) :
  forall (s : nat) (g : Globals),
    rule g = Some r ->
    0 < unit r <= Int64.max_int ->
    currWindow (limiterOf g clientId) = w ->
    prevCounter (limiterOf g clientId) = 0 ->
    currCounter (limiterOf g clientId) = Z.of_nat s - 1 ->
    (1 <= s)%nat ->
    Z.of_nat s + Z.of_nat (length clocks) < Int64.max_int ->
    Forall (fun c => Truncate (Now c) (unit r) = w) clocks ->
    map fst (fst (requests clientId clocks g))
    = map (fun i => Z.of_nat i <? maxRequests r) (seq s (length clocks)).
Proof.
  induction clocks as [|c clocks IH]; intros s g Hr Hu Hw Hp Hc Hs Hlen Hall.
  - reflexivity.
  - apply Forall_cons in Hall. destruct Hall as [Hcw Hall].
    cbn [length] in Hlen. rewrite Nat2Z.inj_succ in Hlen.
    destruct (limiterOf_AllowRequest clientId c g r Hr) as (Hr' & Hl' & Hres).
    destruct (Allow_counting r c (limiterOf g clientId)) as [Hdec Hnew];
      try lia; try congruence.
    { unfold Int64.min_int, Int64.max_int in *. lia. }
    cbn [requests length seq map].
    destruct (AllowRequest clientId c g) as [res g'] eqn:E. cbn [fst snd] in *.
    specialize (IH (S s) g' Hr' Hu).
    destruct (requests clientId clocks g') as [ress g''] eqn:E2. cbn [fst snd map] in *.
    rewrite Hres, Hdec, Hc. f_equal.
    + f_equal. lia.
    + apply IH; rewrite ?Hl', ?Hnew; cbn [currWindow prevCounter currCounter];
        try assumption; try lia.
Qed.

(** X1: a client with no entry in the registry, under a rule with a
    positive unit, has exactly [maxRequests] requests admitted in its
    first window: of the requests it makes in one aligned window, the
    first [maxRequests] are admitted and every later one is rejected. *)
Theorem new_client_first_window (clientId : string) (clocks : list Z) (w : Z)
    (g : Globals) (r : Rule) :
  rule g = Some r ->
  clientLimiterMap g !! clientId = None ->
  0 < unit r <= Int64.max_int ->
  Z.of_nat (length clocks) < Int64.max_int ->
  Forall (fun c => c / unit r = w) clocks ->
  map fst (fst (requests clientId clocks g))
  = map (fun i => Z.of_nat i <? maxRequests r) (seq 0 (length clocks)).
Proof.
  intros Hr Hnone Hu Hlen Hall.
  destruct clocks as [|c clocks]; [reflexivity|].
  apply Forall_cons in Hall. destruct Hall as [Hcw Hall].
  cbn [length] in Hlen. rewrite Nat2Z.inj_succ in Hlen.
  destruct (limiterOf_AllowRequest clientId c g r Hr) as (Hr' & Hl' & Hres).
  assert (Hnew : limiterOf g clientId = newLimiter) by (unfold limiterOf; now rewrite Hnone).
  rewrite Hnew in *.
  destruct (Allow_first r c) as [Hdec Hl1]; [lia| |].
  { unfold Int64.min_int, Int64.max_int in *. lia. }
  cbn [requests length seq map].
  destruct (AllowRequest clientId c g) as [res g'] eqn:E. cbn [fst snd] in *.
  pose proof (requests_in_window r clientId (Truncate (Now c) (unit r)) clocks 1 g' Hr' Hu) as Hrest.
  destruct (requests clientId clocks g') as [ress g''] eqn:E2. cbn [fst snd map] in *.
  rewrite Hres, Hdec. f_equal.
  apply Hrest; rewrite ?Hl', ?Hl1; cbn [currWindow prevCounter currCounter];
    try reflexivity; try lia.
  eapply Forall_impl; [exact Hall|]. cbn beta. intros c' Hc'.
  rewrite !Truncate_pos by lia. cbn [abs_ns loc Now]. congruence.
Qed.

(** A request under a negative unit, of a limiter with a current count
    of 0 that is not at this very clock reading: [Truncate] leaves the
    clock reading as it is, both counts end as 0, the request is decided
    on an estimate of 0 and the duration returned is the unit itself. *)
Lemma Allow_negative_unit (r : Rule) (clock : Z) (l : Limiter) :
  Int64.min_int <= unit r < 0 ->
  currCounter l = 0 ->
  currWindow l <> Now clock ->
  fst (Allow r clock l) = (0 <? maxRequests r, unit r)
  /\ currCounter (snd (Allow r clock l)) = 0
  /\ currWindow (snd (Allow r clock l)) = Now clock.
Proof.
  intros Hu Hc Hw.
  assert (Ht : Truncate (Now clock) (unit r) = Now clock).
  { unfold Truncate. destruct (Z.leb_spec (unit r) 0); [reflexivity|lia]. }
  assert (Hd : snd (fst (Allow r clock l)) = unit r).
  { rewrite Allow_duration, Ht. unfold Sub. rewrite Z.sub_diag.
    change (Int64.saturate 0) with 0. unfold Int64.sub. rewrite Z.sub_0_r.
    apply wrap_in_range. unfold Int64.min_int, Int64.max_int in *. lia. }
  assert (Hadv : exists pw, advance (Truncate (Now clock) (unit r))
                     (Add (Truncate (Now clock) (unit r)) (Int64.neg (unit r))) l
                   = mkLimiter pw 0 (Now clock) 0).
  { rewrite Ht. unfold advance.
    destruct (eqb (Now clock) (currWindow l)) eqn:E1.
    { apply Time_eqb_eq in E1. now contradiction Hw. }
    destruct (eqb (Add (Now clock) (Int64.neg (unit r))) (currWindow l));
      [rewrite Hc|]; eexists; reflexivity. }
  destruct Hadv as [pw Hadv].
  assert (Hfst : fst (fst (Allow r clock l)) = (0 <? maxRequests r)).
  { unfold Allow. cbn [fst snd]. rewrite Hadv.
    unfold activeNumRequests. cbn [prevCounter currWindow currCounter].
    rewrite <- Ht at 2.
    destruct (overlap_range r clock ltac:(lia)
                ltac:(unfold Int64.min_int, Int64.max_int in *; lia)) as (Ho0 & Hor & _).
    rewrite weighted_zero; try assumption; [reflexivity|lia|].
    unfold Int64.min_int, Int64.max_int in Hu. lia. }
  split; [|unfold Allow; cbn [snd]; rewrite Hadv; split; reflexivity].
  destruct (Allow r clock l) as [[a d] l']. cbn [fst snd] in *. congruence.
Qed.

Lemma requests_negative_unit (r : Rule) (clientId : string) (clocks : list Z) :
  forall g : Globals,
    rule g = Some r ->
    1 <= maxRequests r ->
    Int64.min_int <= unit r < 0 ->
    currCounter (limiterOf g clientId) = 0 ->
    Forall (fun c => currWindow (limiterOf g clientId) <> Now c) clocks ->
    StronglySorted Z.lt clocks ->
    Forall (fun res => res = (true, unit r)) (fst (requests clientId clocks g)).
Proof.
  induction clocks as [|c clocks IH]; intros g Hr HM Hu Hc Hne Hsorted.
  - constructor.
  - apply Forall_cons in Hne. destruct Hne as [Hne _].
    apply StronglySorted_inv in Hsorted. destruct Hsorted as [Hsorted Hlt].
    destruct (limiterOf_AllowRequest clientId c g r Hr) as (Hr' & Hl' & Hres).
    destruct (Allow_negative_unit r c (limiterOf g clientId) Hu Hc Hne) as (Hdec & Hc' & Hw').
    cbn [requests].
    destruct (AllowRequest clientId c g) as [res g'] eqn:E. cbn [fst snd] in *.
    specialize (IH g' Hr' HM Hu).
    destruct (requests clientId clocks g') as [ress g''] eqn:E2. cbn [fst snd] in *.
    constructor.
    + rewrite Hres, Hdec. f_equal. apply Z.ltb_lt. lia.
    + apply IH; rewrite ?Hl'; try assumption.
      eapply Forall_impl; [exact Hlt|]. cbn beta. intros c' Hcc'.
      rewrite Hw'. intros [= E3]. lia.
Qed.

(** X10: [AddRule] accepts a negative unit, and such a rule limits
    nothing for a client whose requests come at increasing clock
    readings: every request starts a window of its own, is admitted
    (for [maxRequests >= 1]) and is answered with the negative unit as
    its duration. *)
Theorem negative_unit_never_limits (clientId : string) (clocks : list Z)
    (g : Globals) (r : Rule) :
  rule g = Some r ->
  clientLimiterMap g !! clientId = None ->
  1 <= maxRequests r ->
  Int64.min_int <= unit r < 0 ->
  StronglySorted Z.lt clocks ->
  Forall (fun res => res = (true, unit r)) (fst (requests clientId clocks g)).
Proof.
  intros Hr Hnone HM Hu Hsorted.
  assert (Hnew : limiterOf g clientId = newLimiter) by (unfold limiterOf; now rewrite Hnone).
  apply (requests_negative_unit r); try assumption; rewrite Hnew; [reflexivity|].
  apply Forall_forall. intros c _. discriminate.
Qed.

(** X11: [ResetLimiter] keeps the rule and forgets every client: the
    next request of any client, whatever its limiter had counted, is
    decided like a first request and admitted (for [maxRequests >= 1]
    and a unit other than 0), and the registry then holds that client
    alone. *)
Theorem ResetLimiter_forgets (clientId : string) (clock : Z) (g : Globals) (r : Rule) :
  rule g = Some r ->
  1 <= maxRequests r ->
  unit r <> 0 -> Int64.min_int <= unit r <= Int64.max_int ->
  rule (ResetLimiter g) = Some r
  /\ fst (fst (AllowRequest clientId clock (ResetLimiter g))) = true
  /\ clientLimiterMap (snd (AllowRequest clientId clock (ResetLimiter g)))
     = {[ clientId := mkLimiter zero 0 (Truncate (Now clock) (unit r)) 0 ]}.
Proof.
  intros Hr HM Hu0 Hu.
  assert (Hr' : rule (ResetLimiter g) = Some r) by exact Hr.
  destruct (Allow_first r clock Hu0 Hu) as [Hdec Hl].
  split; [exact Hr'|].
  rewrite (AllowRequest_rule _ _ _ _ Hr'). cbn [fst snd ResetLimiter clientLimiterMap].
  rewrite lookup_empty. cbn [default from_option id].
  rewrite Hdec, Hl. split; [apply Z.ltb_lt; lia|]. apply insert_empty.
Qed.

(** X5: clients do not affect each other.  Two calls of [AllowRequest]
    for different clients give the same two decisions and leave the
    same globals in either order. *)
Theorem clients_independent (k1 k2 : string) (c1 c2 : Z) (g : Globals) :
  k1 <> k2 ->
  fst (AllowRequest k1 c1 g) = fst (AllowRequest k1 c1 (snd (AllowRequest k2 c2 g)))
  /\ fst (AllowRequest k2 c2 g) = fst (AllowRequest k2 c2 (snd (AllowRequest k1 c1 g)))
  /\ snd (AllowRequest k2 c2 (snd (AllowRequest k1 c1 g)))
     = snd (AllowRequest k1 c1 (snd (AllowRequest k2 c2 g))).
Proof.
  intros Hne. destruct (rule g) as [r|] eqn:Hr.
  - rewrite !(AllowRequest_rule _ _ g r Hr). cbn [fst snd].
    rewrite !(AllowRequest_rule _ _ (mkGlobals (Some r) _) r eq_refl).
    cbn [fst snd clientLimiterMap].
    rewrite !lookup_insert_ne by congruence.
    repeat split. f_equal. apply insert_insert_ne. congruence.
  - rewrite (AllowRequest_no_rule_eq k1 c1 g Hr), (AllowRequest_no_rule_eq k2 c2 g Hr).
    cbn [fst snd].
    rewrite (AllowRequest_no_rule_eq k1 c1 g Hr), (AllowRequest_no_rule_eq k2 c2 g Hr).
    repeat split.
Qed.

(** X6: [AllowRequest] under a rule registers its client and touches
    nothing else: the rule stays, the clients of the registry are those
    it had and [clientId], the limiter of every other client is as it
    was, and the limiter of [clientId] tracks the window of the clock
    reading.  No call removes a client. *)
Theorem AllowRequest_registers (clientId : string) (clock : Z) (g : Globals) (r : Rule) :
  rule g = Some r ->
  let g' := snd (AllowRequest clientId clock g) in
  rule g' = Some r
  /\ dom (clientLimiterMap g') = dom (clientLimiterMap g) ∪ {[ clientId ]}
  /\ (forall k, k <> clientId -> clientLimiterMap g' !! k = clientLimiterMap g !! k)
  /\ (exists l, clientLimiterMap g' !! clientId = Some l
                /\ currWindow l = Truncate (Now clock) (unit r)).
Proof.
  intros Hr g'. unfold g'. rewrite (AllowRequest_rule _ _ _ _ Hr).
  cbn [snd rule clientLimiterMap]. split; [reflexivity|]. split; [|split].
  - rewrite dom_insert_L. apply (comm_L (∪)).
  - intros k Hk. now rewrite lookup_insert_ne.
  - eexists. split; [apply lookup_insert_eq|].
    unfold Allow. cbn [snd]. apply currWindow_advance.
Qed.

End Registry.

(** * Properties of the server *)



Section Server.
Context `{Platform}.

(** X14: under a rule with a positive unit the handler answers either
    200 without an [X-RateLimit-Reset] header, for an admitted request,
    or 429 with the header set to the duration that [AllowRequest]
    returned, for a rejected one; that duration is the time left in the
    window of the request, positive and at most the unit. *)
Theorem handler_answer (clientId : string) (clock : Z) (g : Globals) (r : Rule)
    (m : gmap string server.clientMetric) :
  rule g = Some r ->
  0 < unit r <= Int64.max_int ->
  let resp := fst (server.handler clientId clock (g, m)) in
  (fst (fst (AllowRequest clientId clock g)) = true
   /\ server.StatusCode resp = server.StatusOK
   /\ server.RateLimitReset resp = None)
  \/ (fst (fst (AllowRequest clientId clock g)) = false
      /\ server.StatusCode resp = server.StatusTooManyRequests
      /\ server.RateLimitReset resp = Some (snd (fst (AllowRequest clientId clock g)))
      /\ snd (fst (AllowRequest clientId clock g)) = unit r - clock mod unit r
      /\ 0 < snd (fst (AllowRequest clientId clock g)) <= unit r).
Proof.
  intros Hr Hu resp. unfold resp, server.handler. cbn [fst snd].
  assert (Hd : snd (fst (AllowRequest clientId clock g)) = unit r - clock mod unit r).
  { rewrite (AllowRequest_rule _ _ _ _ Hr). cbn [fst snd]. now apply Allow_duration_pos. }
  pose proof (Z.mod_pos_bound clock (unit r) ltac:(lia)) as Hm.
  destruct (AllowRequest clientId clock g) as [[allowRequest timeLeft] g'].
  cbn [fst snd] in *. destruct allowRequest; cbn [fst].
  - left. repeat split.
  - right. repeat split; [exact Hd|lia|lia].
Qed.

(** *** The metrics *)











(** *** The totals *)









End Server.


(** * Properties of concurrent calls *)

Section Schedules.
Context `{Platform}.

Lemma registered_goto (i : nat) (clientId : string) (at_ : schedule.pc)
    (s : schedule.State) :
  registered s ->
  match at_ with
  | schedule.AtNilCheck | schedule.AtLoad =>
      is_Some (schedule.clientLimiterMap s !! clientId)
  | schedule.AtStore => False
  | schedule.AtAllow l => schedule.clientLimiterMap s !! clientId = Some l
  | schedule.Returned _ => True
  end ->
  registered (schedule.goto i clientId at_ s).
Proof.
  intros Hs Hat. unfold registered, schedule.goto.
  cbn [schedule.goroutines schedule.clientLimiterMap].
  apply Forall_insert; [exact Hs|exact Hat].
Qed.

Lemma step_registered (i : nat) (clock : Z) (s : schedule.State) :
  registered s ->
  schedule.clientLimiterMap (schedule.step i clock s) = schedule.clientLimiterMap s
  /\ length (schedule.heap (schedule.step i clock s)) = length (schedule.heap s)
  /\ schedule.rule (schedule.step i clock s) = schedule.rule s
  /\ registered (schedule.step i clock s).
Proof.
  intros Hs. unfold schedule.step.
  destruct (schedule.goroutines s !! i) as [[clientId at_]|] eqn:Hi; [|now repeat split].
  pose proof (Forall_lookup_1 _ _ _ _ Hs Hi) as Hat. cbn [fst snd] in Hat.
  destruct at_ as [| | |l|res].
  - destruct (schedule.rule s) eqn:Hr;
      (repeat split; [exact Hr|apply registered_goto; easy]).
  - destruct Hat as [l Hl]. rewrite Hl.
    repeat split. now apply registered_goto.
  - destruct Hat.
  - destruct (schedule.rule s) as [r|] eqn:Hr; [|now repeat split].
    destruct (schedule.heap s !! l) as [lim|]; [|now repeat split].
    destruct (Allow r clock lim) as [res lim'].
    cbn [schedule.goto schedule.clientLimiterMap schedule.heap schedule.rule].
    repeat split; [apply length_insert|].
    apply registered_goto; [exact Hs|exact I].
  - now repeat split.
Qed.

(** X15: calls for clients that have a limiter never allocate.  When
    every goroutine still in [AllowRequest] has a client with a limiter
    in the map, and none is between a failed [Load] and its [Store],
    then under any schedule the map keeps every pointer, no limiter is
    added to the heap, the rule stays, and the same holds of the state
    reached. *)
Theorem registered_never_allocates (sched : list (nat * Z)) (s : schedule.State) :
  registered s ->
  schedule.clientLimiterMap (schedule.run sched s) = schedule.clientLimiterMap s
  /\ length (schedule.heap (schedule.run sched s)) = length (schedule.heap s)
  /\ schedule.rule (schedule.run sched s) = schedule.rule s
  /\ registered (schedule.run sched s).
Proof.
  revert s. induction sched as [|[i clock] sched IH]; intros s Hs.
  - now repeat split.
  - change (schedule.run ((i, clock) :: sched) s)
      with (schedule.run sched (schedule.step i clock s)).
    destruct (step_registered i clock s Hs) as (Hm & Hh & Hr & Hs').
    destruct (IH _ Hs') as (Hm' & Hh' & Hr' & Hs'').
    rewrite Hm', Hh', Hr'. now repeat split.
Qed.

End Schedules.

(** * The properties at concrete inputs *)

Ltac evaluated :=
  vm_compute; repeat split; first [reflexivity | discriminate].

Lemma idle_client_reset_witness :
  fst (fst (@Allow amd64 (mkRule 5 Second) (2500 * Millisecond)
              (mkLimiter zero 0 (Now 0) 3))) = true.
Proof.
  refine (proj2 (proj2 (@idle_client_reset amd64 (mkRule 5 Second) 0 (2500 * Millisecond)
                          (mkLimiter zero 0 (Now 0) 3) _ _ _ _))); evaluated.
Defined.

Lemma duration_reaches_next_window_witness :
  (1200 * Millisecond
   + snd (fst (@Allow amd64 (mkRule 5 Second) (1200 * Millisecond) newLimiter))) / Second
  = 1200 * Millisecond / Second + 1.
Proof.
  refine (proj1 (proj2 (@duration_reaches_next_window amd64 (mkRule 5 Second)
                          (1200 * Millisecond) newLimiter _))); evaluated.
Defined.

Lemma retry_after_burst_rejected_witness :
  fst (fst (@Allow amd64 (mkRule 2 Second)
              (900 * Millisecond
               + snd (fst (@Allow amd64 (mkRule 2 Second) (900 * Millisecond)
                             (mkLimiter zero 0 (Now 0) 2))))
              (snd (@Allow amd64 (mkRule 2 Second) (900 * Millisecond)
                      (mkLimiter zero 0 (Now 0) 2))))) = false.
Proof.
  refine (@retry_after_burst_rejected amd64 (mkRule 2 Second) (900 * Millisecond)
            (mkLimiter zero 0 (Now 0) 2) _ _ _); evaluated.
Defined.

Lemma estimate_between_counts_witness :
  currCounter (snd (@Allow amd64 (mkRule 5 Second) (1200 * Millisecond)
                      (mkLimiter zero 0 (Now 0) 4)))
  <= @activeNumRequests amd64 (mkRule 5 Second) (Now (1200 * Millisecond))
       (snd (@Allow amd64 (mkRule 5 Second) (1200 * Millisecond)
               (mkLimiter zero 0 (Now 0) 4))).
Proof.
  refine (proj1 (@estimate_between_counts amd64 (mkRule 5 Second) (1200 * Millisecond)
                   (mkLimiter zero 0 (Now 0) 4) _ _ _)); evaluated.
Defined.

Lemma counts_bounded_by_calls_witness :
  prevCounter (snd (@Allow amd64 (mkRule 5 Second) (1200 * Millisecond)
                      (@calls amd64 (mkRule 5 Second) [0; 100 * Millisecond] newLimiter)))
  + currCounter (snd (@Allow amd64 (mkRule 5 Second) (1200 * Millisecond)
                        (@calls amd64 (mkRule 5 Second) [0; 100 * Millisecond] newLimiter)))
  <= 2.
Proof.
  refine (proj2 (proj2 (@counts_bounded_by_calls amd64 (mkRule 5 Second)
                          [0; 100 * Millisecond] (1200 * Millisecond) _))); evaluated.
Defined.

Lemma non_positive_max_rejects_witness :
  fst (fst (@AllowRequest amd64 "A" (1200 * Millisecond) (AddRule 0 Second init))) = false.
Proof.
  refine (@non_positive_max_rejects amd64 "A" (1200 * Millisecond) (AddRule 0 Second init)
            (mkRule 0 Second) _ _ _ _ _); evaluated.
Defined.

Lemma new_client_first_window_witness :
  map fst (fst (@requests amd64 "A" [0; 100 * Millisecond; 200 * Millisecond; 300 * Millisecond]
                  (AddRule 2 Second init)))
  = [true; true; false; false].
Proof.
  refine (@new_client_first_window amd64 "A"
            [0; 100 * Millisecond; 200 * Millisecond; 300 * Millisecond] 0
            (AddRule 2 Second init) (mkRule 2 Second) _ _ _ _ _);
    [reflexivity | reflexivity | evaluated | evaluated | repeat constructor].
Defined.

Lemma negative_unit_never_limits_witness :
  Forall (fun res => res = (true, - Second))
    (fst (@requests amd64 "A" [0; 1; 2] (AddRule 1 (- Second) init))).
Proof.
  refine (@negative_unit_never_limits amd64 "A" [0; 1; 2] (AddRule 1 (- Second) init)
            (mkRule 1 (- Second)) _ _ _ _ _);
    [reflexivity | reflexivity | evaluated | evaluated | repeat constructor].
Defined.

Lemma ResetLimiter_forgets_witness :
  fst (fst (@AllowRequest amd64 "A" (300 * Millisecond)
              (ResetLimiter
                 (snd (@requests amd64 "A" [0; 100 * Millisecond] (AddRule 1 Second init))))))
  = true.
Proof.
  refine (proj1 (proj2 (@ResetLimiter_forgets amd64 "A" (300 * Millisecond)
                          (snd (@requests amd64 "A" [0; 100 * Millisecond]
                                  (AddRule 1 Second init)))
                          (mkRule 1 Second) _ _ _ _))); evaluated.
Defined.

Lemma clients_independent_witness :
  fst (@AllowRequest amd64 "A" 0 (AddRule 1 Second init))
  = fst (@AllowRequest amd64 "A" 0
           (snd (@AllowRequest amd64 "B" (100 * Millisecond) (AddRule 1 Second init)))).
Proof.
  refine (proj1 (@clients_independent amd64 "A" "B" 0 (100 * Millisecond)
                   (AddRule 1 Second init) _)); discriminate.
Defined.

Lemma AllowRequest_registers_witness :
  rule (snd (@AllowRequest amd64 "A" (1200 * Millisecond) (AddRule 5 Second init)))
  = Some (mkRule 5 Second).
Proof.
  refine (proj1 (@AllowRequest_registers amd64 "A" (1200 * Millisecond)
                   (AddRule 5 Second init) (mkRule 5 Second) _)); reflexivity.
Defined.

Lemma handler_answer_witness :
  let resp := fst (@server.handler amd64 "A" (1200 * Millisecond)
                     (AddRule 5 Second init, ∅)) in
  (fst (fst (@AllowRequest amd64 "A" (1200 * Millisecond) (AddRule 5 Second init))) = true
   /\ server.StatusCode resp = server.StatusOK
   /\ server.RateLimitReset resp = None)
  \/ (fst (fst (@AllowRequest amd64 "A" (1200 * Millisecond) (AddRule 5 Second init))) = false
      /\ server.StatusCode resp = server.StatusTooManyRequests
      /\ server.RateLimitReset resp
         = Some (snd (fst (@AllowRequest amd64 "A" (1200 * Millisecond)
                             (AddRule 5 Second init))))
      /\ snd (fst (@AllowRequest amd64 "A" (1200 * Millisecond) (AddRule 5 Second init)))
         = Second - 1200 * Millisecond mod Second
      /\ 0 < snd (fst (@AllowRequest amd64 "A" (1200 * Millisecond) (AddRule 5 Second init)))
         <= Second).
Proof.
  refine (@handler_answer amd64 "A" (1200 * Millisecond) (AddRule 5 Second init)
            (mkRule 5 Second) ∅ _ _); [reflexivity | evaluated].
Defined.



Lemma registered_never_allocates_witness :
  length (schedule.heap
            (@schedule.run amd64 [(0%nat, 0); (1%nat, 0); (0%nat, 0); (1%nat, 0); (0%nat, 0); (1%nat, 0)]
               (schedule.mkState (Some (mkRule 1 Second)) [newLimiter] {[ "A" := 0%nat ]}
                  [("A", schedule.AtNilCheck); ("A", schedule.AtNilCheck)])))
  = 1%nat.
Proof.
  refine (proj1 (proj2 (@registered_never_allocates amd64
                          [(0%nat, 0); (1%nat, 0); (0%nat, 0); (1%nat, 0); (0%nat, 0); (1%nat, 0)]
                          (schedule.mkState (Some (mkRule 1 Second)) [newLimiter]
                             {[ "A" := 0%nat ]}
                             [("A", schedule.AtNilCheck); ("A", schedule.AtNilCheck)]) _))).
  repeat constructor; exists 0%nat; reflexivity.
Defined.
